(** * Lilja: the level and the main game state

    A shallow embedding of the two game-state objects of the game,
    [Lilja.Level] (collision sweep and mission intro) and [Lilja.Main]
    (frame update and bullet handlers), over a small model of the engine
    they drive.  The engine is a collaborator: it is modelled by the
    contract the game code relies on (overlap passes with callbacks,
    signals, timers, tweens, audio), and every call the game code makes to
    it is recorded, in program order, in a log. *)

From Stdlib Require Import ZArith QArith.
From stdpp Require Import gmap strings list fin_maps pretty.

Local Open Scope string_scope.
Local Open Scope Z_scope.
Local Open Scope list_scope.

(** ** JavaScript values *)

(** References to the engine objects the game code holds. *)
Inductive Ref :=
  | RGame
  | RThis
  | RMap (name : string)
  | RLayer (name : string)
  | RGroup (g : nat)
  | RActor (i : nat)
  | RAudio (a : nat)
  | RDialogue (d : nat)
  | RText (t : nat)
  | RTimer (t : nat)
  | RTween (t : nat).

Inductive Value :=
  | VUndefined
  | VNull
  | VBool (b : bool)
  | VNum (n : Z)
  | VStr (s : string)
  | VRef (r : Ref).

(** Truthiness, as used by [if (!v)]. *)
Definition truthy (v : Value) : bool :=
  match v with
  | VUndefined | VNull => false
  | VBool b => b
  | VNum n => negb (n =? 0)
  | VStr s => negb (String.eqb s "")
  | VRef _ => true
  end.

(** The functions of the two prototypes that are handed to the overlap
    passes as collide or process callbacks. *)
Inductive Callback :=
  | Level_bulletWallCollision
  | Level_playerEnemyProcess
  | Level_playerEnemyCollision
  | Level_bulletEnemyCollision
  | Main_bulletWallCollision
  | Main_bulletEnemyCollision.

(** The functions bound to signals and timers; the two anonymous ones are
    named after what they do. *)
Inductive Listener :=
  | Level_beginIntro
  | Level_startMission
  | Level_flashToggle
  | Main_destroyBullet.

(** ** Engine objects *)

(** A sprite with an arcade body.  The fields are the ones the game code and
    the overlap pass read or write. *)
Record Actor := mkActor {
  exists_ : bool;
  x : Z;
  y : Z;
  width : Z;
  height : Z;
  body_enable : bool;
  health : Z;
  damage : Z;
  invincible : bool;
  disableControls : bool;
  frameName : string;
  animation : string;
  bullets : Value;
  chase : Value;
  ground : Value
}.

Definition set_exists (v : bool) (a : Actor) : Actor :=
  mkActor v (x a) (y a) (width a) (height a) (body_enable a) (health a)
    (damage a) (invincible a) (disableControls a) (frameName a) (animation a)
    (bullets a) (chase a) (ground a).

Definition set_x (v : Z) (a : Actor) : Actor :=
  mkActor (exists_ a) v (y a) (width a) (height a) (body_enable a) (health a)
    (damage a) (invincible a) (disableControls a) (frameName a) (animation a)
    (bullets a) (chase a) (ground a).

Definition set_y (v : Z) (a : Actor) : Actor :=
  mkActor (exists_ a) (x a) v (width a) (height a) (body_enable a) (health a)
    (damage a) (invincible a) (disableControls a) (frameName a) (animation a)
    (bullets a) (chase a) (ground a).

Definition set_body_enable (v : bool) (a : Actor) : Actor :=
  mkActor (exists_ a) (x a) (y a) (width a) (height a) v (health a)
    (damage a) (invincible a) (disableControls a) (frameName a) (animation a)
    (bullets a) (chase a) (ground a).

Definition set_health (v : Z) (a : Actor) : Actor :=
  mkActor (exists_ a) (x a) (y a) (width a) (height a) (body_enable a) v
    (damage a) (invincible a) (disableControls a) (frameName a) (animation a)
    (bullets a) (chase a) (ground a).

Definition set_disableControls (v : bool) (a : Actor) : Actor :=
  mkActor (exists_ a) (x a) (y a) (width a) (height a) (body_enable a)
    (health a) (damage a) (invincible a) v (frameName a) (animation a)
    (bullets a) (chase a) (ground a).

Definition set_frameName (v : string) (a : Actor) : Actor :=
  mkActor (exists_ a) (x a) (y a) (width a) (height a) (body_enable a)
    (health a) (damage a) (invincible a) (disableControls a) v (animation a)
    (bullets a) (chase a) (ground a).

Definition set_animation (v : string) (a : Actor) : Actor :=
  mkActor (exists_ a) (x a) (y a) (width a) (height a) (body_enable a)
    (health a) (damage a) (invincible a) (disableControls a) (frameName a) v
    (bullets a) (chase a) (ground a).

Definition set_chase (v : Value) (a : Actor) : Actor :=
  mkActor (exists_ a) (x a) (y a) (width a) (height a) (body_enable a)
    (health a) (damage a) (invincible a) (disableControls a) (frameName a)
    (animation a) (bullets a) v (ground a).

Definition set_ground (v : Value) (a : Actor) : Actor :=
  mkActor (exists_ a) (x a) (y a) (width a) (height a) (body_enable a)
    (health a) (damage a) (invincible a) (disableControls a) (frameName a)
    (animation a) (bullets a) (chase a) v.

(** An object of an object layer of the tilemap (a spawn point). *)
Record MapObject := mkMapObject {
  gid : Z;
  ox : Z;
  oy : Z
}.

Record Audio := mkAudio {
  a_key : string;
  a_loop : bool;
  a_volume : Q;
  a_playing : bool
}.

(** A listener bound to a signal; [b_once] is set by [addOnce]. *)
Record Binding := mkBinding {
  b_listener : Listener;
  b_context : Value;
  b_once : bool
}.

Record Dialogue := mkDialogue {
  d_started : option string;
  d_onFinished : list Binding
}.

Record Text := mkText {
  t_x : Q;
  t_y : Q;
  t_text : Value;
  t_font : string;
  t_fill : string;
  t_anchor : Q;
  t_fixedToCamera : bool;
  t_visible : bool
}.

(** A timer with at most one repeating event. *)
Record Timer := mkTimer {
  tm_autoDestroy : bool;
  tm_delay : Z;
  tm_repeatCount : nat;
  tm_event : option Binding;
  tm_running : bool
}.

Inductive TweenKind :=
  | TweenFromX (x0 : Z)
  | TweenScaleTo (sx sy : Z).

Record Tween := mkTween {
  tw_target : Value;
  tw_kind : TweenKind;
  tw_rest : Z;
  tw_duration : Z;
  tw_running : bool;
  tw_onComplete : list Binding
}.

(** ** The log of engine calls *)

Inductive Call :=
  | AddTilemap (name : string)
  | AddGroup (g : nat)
  | AddTilesetImage (tileset key : string)
  | CreateLayer (name : string)
  | ResizeWorld (layer : Value)
  | SetCollisionByExclusion (indexes : list Z) (collides : bool)
      (layer : Value) (recalculate : bool)
  | SendToBack (child : Value)
  | AddAudio (key : string)
  | CreateFromObjects (name : string) (id : Z) (key : string) (group : Value)
  | SetAll (group : Value) (key : string) (v : Value)
  | Collide (object1 object2 : Value) (collideCallback processCallback : option Callback)
  | Invoke (cb : Callback) (a b : nat)
  | AudioPlay (sound : Value)
  | AudioStop (sound : Value)
  | AnimationsPlay (sprite : Value) (name : string)
  | AddTween (t : nat)
  | SignalAdd (owner : Value) (b : Binding)
  | MakeHP (player : Value)
  | NewDialogueManager (d : nat)
  | DialogueStart (d : Value) (key : string)
  | AddText (t : nat)
  | TimeCreate (t : nat)
  | TimerRepeat (t : Value) (delay : Z) (count : nat)
  | TimerStart (t : Value).

(** ** The world *)

Record World := mkWorld {
  this : gmap string Value;
  actors : list Actor;
  groups : list (list nat);
  layers : gmap string (list nat);
  objects : gmap string (list MapObject);
  audios : list Audio;
  dialogues : list Dialogue;
  texts : list Text;
  timers : list Timer;
  tweens : list Tween;
  camera_width : Z;
  camera_height : Z;
  fps : Z;
  log : list Call
}.

Definition set_this (v : gmap string Value) (w : World) : World :=
  mkWorld v (actors w) (groups w) (layers w) (objects w) (audios w)
    (dialogues w) (texts w) (timers w) (tweens w) (camera_width w)
    (camera_height w) (fps w) (log w).

Definition set_actors (v : list Actor) (w : World) : World :=
  mkWorld (this w) v (groups w) (layers w) (objects w) (audios w)
    (dialogues w) (texts w) (timers w) (tweens w) (camera_width w)
    (camera_height w) (fps w) (log w).

Definition set_groups (v : list (list nat)) (w : World) : World :=
  mkWorld (this w) (actors w) v (layers w) (objects w) (audios w)
    (dialogues w) (texts w) (timers w) (tweens w) (camera_width w)
    (camera_height w) (fps w) (log w).

Definition set_audios (v : list Audio) (w : World) : World :=
  mkWorld (this w) (actors w) (groups w) (layers w) (objects w) v
    (dialogues w) (texts w) (timers w) (tweens w) (camera_width w)
    (camera_height w) (fps w) (log w).

Definition set_dialogues (v : list Dialogue) (w : World) : World :=
  mkWorld (this w) (actors w) (groups w) (layers w) (objects w) (audios w)
    v (texts w) (timers w) (tweens w) (camera_width w)
    (camera_height w) (fps w) (log w).

Definition set_texts (v : list Text) (w : World) : World :=
  mkWorld (this w) (actors w) (groups w) (layers w) (objects w) (audios w)
    (dialogues w) v (timers w) (tweens w) (camera_width w)
    (camera_height w) (fps w) (log w).

Definition set_timers (v : list Timer) (w : World) : World :=
  mkWorld (this w) (actors w) (groups w) (layers w) (objects w) (audios w)
    (dialogues w) (texts w) v (tweens w) (camera_width w)
    (camera_height w) (fps w) (log w).

Definition set_tweens (v : list Tween) (w : World) : World :=
  mkWorld (this w) (actors w) (groups w) (layers w) (objects w) (audios w)
    (dialogues w) (texts w) (timers w) v (camera_width w)
    (camera_height w) (fps w) (log w).

Definition set_log (v : list Call) (w : World) : World :=
  mkWorld (this w) (actors w) (groups w) (layers w) (objects w) (audios w)
    (dialogues w) (texts w) (timers w) (tweens w) (camera_width w)
    (camera_height w) (fps w) v.

Definition record (c : Call) (w : World) : World :=
  set_log (log w ++ [c]) w.

(** Property read on the state object: a property that was never assigned
    reads as [undefined]. *)
Definition get (k : string) (w : World) : Value :=
  default VUndefined (this w !! k).

Definition put (k : string) (v : Value) (w : World) : World :=
  set_this (<[k := v]> (this w)) w.

(** In-place update of the actor behind a reference; a reference to no
    actor of the world updates nothing. *)
Definition update_actor (i : nat) (f : Actor -> Actor) (w : World) : World :=
  set_actors (alter f i (actors w)) w.

(** ** Overlap passes *)

(** The members an overlap pass ranges over: a sprite is its own single
    member, a group has its children, a tilemap layer its colliding tiles.
    Anything else ([undefined], [null]) has none. *)
Definition members (v : Value) (w : World) : list nat :=
  match v with
  | VRef (RActor i) => [i]
  | VRef (RGroup g) => default [] (groups w !! g)
  | VRef (RLayer name) => default [] (layers w !! name)
  | _ => []
  end.

(** Overlap of two axis-aligned bodies. *)
Definition intersects (a b : Actor) : bool :=
  negb (x a + width a <=? x b) && negb (y a + height a <=? y b)
  && negb (x b + width b <=? x a) && negb (y b + height b <=? y a).

Definition collidable (a b : Actor) : bool :=
  exists_ a && exists_ b && body_enable a && body_enable b && intersects a b.

Section Collide.

(** The prototype's methods, as the engine calls them back. *)
Variable on_collide : Callback -> nat -> nat -> World -> World.
Variable on_process : Callback -> nat -> nat -> World -> bool.

(** One pair: the bodies must exist, be enabled and overlap, and the
    process callback (when given) must not return [false]; only then is the
    collide callback called. *)
Definition collide_pair (cb proc : option Callback) (i j : nat) (w : World) : World :=
  match actors w !! i, actors w !! j with
  | Some a, Some b =>
      if collidable a b then
        if match proc with Some p => on_process p i j w | None => true end then
          match cb with
          | Some c => on_collide c i j (record (Invoke c i j) w)
          | None => w
          end
        else w
      else w
  | _, _ => w
  end.

Definition collide_one (cb proc : option Callback) (i : nat) (js : list nat)
    (w : World) : World :=
  foldl (fun w j => collide_pair cb proc i j w) w js.

Definition collide_all (cb proc : option Callback) (ms js : list nat)
    (w : World) : World :=
  foldl (fun w i => collide_one cb proc i js w) w ms.

(** [game.physics.arcade.collide(object1, object2, collideCallback,
    processCallback, callbackContext)]. *)
Definition collide (object1 object2 : Value) (cb proc : option Callback)
    (w : World) : World :=
  collide_all cb proc (members object1 w) (members object2 w)
    (record (Collide object1 object2 cb proc) w).

End Collide.

(** ** Exceptions *)

Inductive Error :=
  | TypeError (what : string).

(** A method either returns, or throws; what it did to the world before
    throwing stays done. *)
Inductive Outcome (A : Type) :=
  | Ok (a : A) (w : World)
  | Throw (e : Error) (w : World).

Arguments Ok {A} a w.
Arguments Throw {A} e w.

Definition M (A : Type) : Type := World -> Outcome A.

#[global] Instance M_ret : MRet M := fun A a w => Ok a w.

#[global] Instance M_bind : MBind M := fun A B f m w =>
  match m w with
  | Ok a w' => f a w'
  | Throw e w' => Throw e w'
  end.

Definition throw {A : Type} (e : Error) : M A := fun w => Throw e w.

Definition lift (f : World -> World) : M unit := fun w => Ok tt (f w).

Definition read {A : Type} (f : World -> A) : M A := fun w => Ok (f w) w.

Definition world_of {A : Type} (o : Outcome A) : World :=
  match o with
  | Ok _ w => w
  | Throw _ w => w
  end.

Definition returned {A : Type} (o : Outcome A) : option A :=
  match o with
  | Ok a _ => Some a
  | Throw _ _ => None
  end.

Definition exec {A : Type} (m : M A) (w : World) : World := world_of (m w).

(** ** Dereferencing *)

(** Member access on a value that is not the expected kind of object. *)
Definition the_game (v : Value) : M unit :=
  match v with
  | VRef RGame => mret tt
  | _ => throw (TypeError "game")
  end.

Definition the_map (v : Value) : M string :=
  match v with
  | VRef (RMap name) => mret name
  | _ => throw (TypeError "map")
  end.

Definition the_layer (v : Value) : M string :=
  match v with
  | VRef (RLayer name) => mret name
  | _ => throw (TypeError "layer")
  end.

Definition the_group (v : Value) : M nat :=
  match v with
  | VRef (RGroup g) => mret g
  | _ => throw (TypeError "group")
  end.

Definition the_actor (v : Value) : M nat :=
  match v with
  | VRef (RActor i) => mret i
  | _ => throw (TypeError "sprite")
  end.

Definition the_audio (v : Value) : M nat :=
  match v with
  | VRef (RAudio a) => mret a
  | _ => throw (TypeError "sound")
  end.

Definition the_dialogue (v : Value) : M nat :=
  match v with
  | VRef (RDialogue d) => mret d
  | _ => throw (TypeError "dialogue")
  end.

Definition the_text (v : Value) : M nat :=
  match v with
  | VRef (RText t) => mret t
  | _ => throw (TypeError "text")
  end.

Definition the_timer (v : Value) : M nat :=
  match v with
  | VRef (RTimer t) => mret t
  | _ => throw (TypeError "timer")
  end.

(** Reading or writing a property of [undefined] or [null] throws. *)
Definition not_nullish (v : Value) : M unit :=
  match v with
  | VUndefined | VNull => throw (TypeError "property of undefined")
  | _ => mret tt
  end.

(** [v.bullets] *)
Definition prop_bullets (v : Value) : M Value :=
  not_nullish v;;
  match v with
  | VRef (RActor i) =>
      read (fun w => match actors w !! i with
                     | Some a => bullets a
                     | None => VUndefined
                     end)
  | _ => mret VUndefined
  end.

(** The string a value becomes when it is concatenated to a string. *)
Definition JS_toString (v : Value) : string :=
  match v with
  | VUndefined => "undefined"
  | VNull => "null"
  | VBool true => "true"
  | VBool false => "false"
  | VNum n => pretty n
  | VStr s => s
  | VRef _ => "[object Object]"
  end.

(** ** The sprite classes *)

(** The methods of [Lilja.Player], [Lilja.Zombie] and of the bullets that
    the two state objects call.  These classes are not among the sources
    embedded here; each method is taken as a function that updates the sprite
    it is called on. *)
Class Sprites := {
  (** [player.hit(damage)] *)
  Player_hit : Actor -> Z -> Actor;
  (** [player._makeHP()] *)
  Player_makeHP : Actor -> Actor;
  (** [new Lilja.Zombie(game, x, y, key, frame)] *)
  Zombie_new : Z -> Z -> Actor;
  (** [enemy.hit(bullet)] *)
  Enemy_hit : Actor -> Actor -> Actor;
  (** [enemy.onHit(bullet)] *)
  Enemy_onHit : Actor -> Actor -> Actor;
  (** [bullet.hit(other)] *)
  Bullet_hit : Actor -> Actor -> Actor
}.

(** ** Engine calls *)

(** [game.add.tilemap(name)] *)
Definition add_tilemap (game : Value) (name : string) : M Value :=
  the_game game;;
  lift (record (AddTilemap name));;
  mret (VRef (RMap name)).

(** [game.add.group()] *)
Definition add_group (game : Value) : M Value :=
  the_game game;;
  g ← read (fun w => length (groups w));
  lift (fun w => record (AddGroup g) (set_groups (groups w ++ [[]]) w));;
  mret (VRef (RGroup g)).

(** [game.add.audio(key)]: a sound that neither loops nor plays, at full
    volume. *)
Definition add_audio (game : Value) (key : string) : M Value :=
  the_game game;;
  a ← read (fun w => length (audios w));
  lift (fun w => record (AddAudio key)
                   (set_audios (audios w ++ [mkAudio key false 1 false]) w));;
  mret (VRef (RAudio a)).

Definition update_audio (i : nat) (f : Audio -> Audio) (w : World) : World :=
  set_audios (alter f i (audios w)) w.

(** [sound.loop = b] *)
Definition sound_set_loop (sound : Value) (b : bool) : M unit :=
  not_nullish sound;;
  match sound with
  | VRef (RAudio i) =>
      lift (update_audio i (fun a => mkAudio (a_key a) b (a_volume a) (a_playing a)))
  | _ => mret tt
  end.

(** [sound.volume = q] *)
Definition sound_set_volume (sound : Value) (q : Q) : M unit :=
  not_nullish sound;;
  match sound with
  | VRef (RAudio i) =>
      lift (update_audio i (fun a => mkAudio (a_key a) (a_loop a) q (a_playing a)))
  | _ => mret tt
  end.

(** [sound.play()] *)
Definition sound_play (sound : Value) : M unit :=
  i ← the_audio sound;
  lift (record (AudioPlay sound));;
  lift (update_audio i (fun a => mkAudio (a_key a) (a_loop a) (a_volume a) true)).

(** [sound.stop()] *)
Definition sound_stop (sound : Value) : M unit :=
  i ← the_audio sound;
  lift (record (AudioStop sound));;
  lift (update_audio i (fun a => mkAudio (a_key a) (a_loop a) (a_volume a) false)).

(** [map.addTilesetImage(tileset, key)] *)
Definition map_addTilesetImage (map : Value) (tileset key : string) : M unit :=
  the_map map;;
  lift (record (AddTilesetImage tileset key)).

(** [map.createLayer(name)] *)
Definition map_createLayer (map : Value) (name : string) : M Value :=
  the_map map;;
  lift (record (CreateLayer name));;
  mret (VRef (RLayer name)).

(** [layer.resizeWorld()] *)
Definition layer_resizeWorld (layer : Value) : M unit :=
  the_layer layer;;
  lift (record (ResizeWorld layer)).

(** [map.setCollisionByExclusion(indexes, collides, layer, recalculate)].
    Which tiles of a layer collide is the engine's own state: the model
    takes the colliding tiles of each layer as given ([layers]) and records
    the call with the arguments it received. *)
Definition map_setCollisionByExclusion (map : Value) (indexes : list Z)
    (collides : bool) (layer : Value) (recalculate : bool) : M unit :=
  the_map map;;
  lift (record (SetCollisionByExclusion indexes collides layer recalculate)).

(** [game.world.sendToBack(child)] *)
Definition world_sendToBack (game : Value) (child : Value) : M unit :=
  the_game game;;
  lift (record (SendToBack child)).

(** The sprite [createFromObjects] makes for one map object, with
    [exists = true] and [adjustY = true]. *)
Definition spawn (Class : Z -> Z -> Actor) (o : MapObject) : Actor :=
  let s := set_exists true (Class (ox o) (oy o)) in
  set_y (y s - height s) s.

(** [map.createFromObjects(name, gid, key, frame, exists, autoCull, group,
    CustomClass, adjustY)]: one sprite of class [CustomClass] for every
    object of the object layer [name] whose gid is [gid], added to [group];
    none when the layer has no such object, or does not exist. *)
Definition map_createFromObjects (map : Value) (name : string) (id : Z)
    (key : string) (group : Value) (Class : Z -> Z -> Actor) : M unit :=
  the_map map;;
  lift (record (CreateFromObjects name id key group));;
  lift (fun w =>
    let new := spawn Class <$> filter (fun o => gid o = id) (default [] (objects w !! name)) in
    let first := length (actors w) in
    let w := set_actors (actors w ++ new) w in
    match group with
    | VRef (RGroup g) =>
        set_groups (alter (fun ms : list nat => (ms ++ seq first (length new))%list) g (groups w)) w
    | _ => w
    end).

(** The two properties the level sets on its enemies. *)
Definition set_prop (key : string) (v : Value) (a : Actor) : Actor :=
  if String.eqb key "chase" then set_chase v a
  else if String.eqb key "ground" then set_ground v a
  else a.

(** [group.setAll(key, value)] *)
Definition group_setAll (group : Value) (key : string) (v : Value) : M unit :=
  g ← the_group group;
  lift (record (SetAll group key v));;
  lift (fun w => foldl (fun w i => update_actor i (set_prop key v) w) w
                   (default [] (groups w !! g))).

(** [sprite.disableControls = b] *)
Definition sprite_set_disableControls (sprite : Value) (b : bool) : M unit :=
  not_nullish sprite;;
  match sprite with
  | VRef (RActor i) => lift (update_actor i (set_disableControls b))
  | _ => mret tt
  end.

(** [sprite.animations.play(name)] *)
Definition animations_play (sprite : Value) (name : string) : M unit :=
  i ← the_actor sprite;
  lift (record (AnimationsPlay sprite name));;
  lift (update_actor i (set_animation name)).

(** [game.add.tween(target).from({x: x0}, duration, easing, true)]: the
    target is put at [x0] and the tween runs towards the position it had. *)
Definition add_tween_from_x (game : Value) (target : Value) (x0 duration : Z) : M Value :=
  the_game game;;
  i ← the_actor target;
  t ← read (fun w => length (tweens w));
  rest ← read (fun w => match actors w !! i with Some a => x a | None => 0 end);
  lift (fun w => record (AddTween t)
                   (set_tweens (tweens w ++ [mkTween target (TweenFromX x0) rest duration true []]) w));;
  lift (update_actor i (set_x x0));;
  mret (VRef (RTween t)).

Definition update_tween (i : nat) (f : Tween -> Tween) (w : World) : World :=
  set_tweens (alter f i (tweens w)) w.

Definition tween_bind (b : Binding) (t : Tween) : Tween :=
  mkTween (tw_target t) (tw_kind t) (tw_rest t) (tw_duration t) (tw_running t)
    (tw_onComplete t ++ [b]).

(** [tween.onComplete.add(listener, context)] *)
Definition tween_onComplete_add (tween : Value) (l : Listener) (context : Value) : M unit :=
  match tween with
  | VRef (RTween t) =>
      lift (record (SignalAdd tween (mkBinding l context false)));;
      lift (update_tween t (tween_bind (mkBinding l context false)))
  | _ => throw (TypeError "tween")
  end.

(** Modelled from the spec: [Lilja.DialogueManager] is not among the
    sources embedded here.  It is the dialogue playback collaborator:
    [start(sequenceKey)] and an [onFinished] signal, to which [addOnce]
    binds a listener that is detached when it is first called. *)
Definition new_DialogueManager (game : Value) : M Value :=
  d ← read (fun w => length (dialogues w));
  lift (fun w => record (NewDialogueManager d)
                   (set_dialogues (dialogues w ++ [mkDialogue None []]) w));;
  mret (VRef (RDialogue d)).

Definition update_dialogue (i : nat) (f : Dialogue -> Dialogue) (w : World) : World :=
  set_dialogues (alter f i (dialogues w)) w.

(** Modelled from the spec: [dialogue.start(key)] of the absent
    [Lilja.DialogueManager]. *)
Definition dialogue_start (dialogue : Value) (key : string) : M unit :=
  d ← the_dialogue dialogue;
  lift (record (DialogueStart dialogue key));;
  lift (update_dialogue d (fun dl => mkDialogue (Some key) (d_onFinished dl))).

(** Modelled from the spec: [dialogue.onFinished.addOnce(listener, context)]
    of the absent [Lilja.DialogueManager]. *)
Definition dialogue_onFinished_addOnce (dialogue : Value) (l : Listener)
    (context : Value) : M unit :=
  d ← the_dialogue dialogue;
  lift (record (SignalAdd dialogue (mkBinding l context true)));;
  lift (update_dialogue d (fun dl =>
          mkDialogue (d_started dl) (d_onFinished dl ++ [mkBinding l context true]))).

(** [game.add.text(x, y, text, {font, fill})]: a visible text, anchored at
    its top left and not fixed to the camera. *)
Definition add_text (game : Value) (tx ty : Q) (text font fill : string) : M Value :=
  the_game game;;
  t ← read (fun w => length (texts w));
  lift (fun w => record (AddText t)
                   (set_texts (texts w ++ [mkText tx ty (VStr text) font fill 0 false true]) w));;
  mret (VRef (RText t)).

Definition update_text (i : nat) (f : Text -> Text) (w : World) : World :=
  set_texts (alter f i (texts w)) w.

(** [text.anchor.set(q)] *)
Definition text_anchor_set (text : Value) (q : Q) : M unit :=
  t ← the_text text;
  lift (update_text t (fun t => mkText (t_x t) (t_y t) (t_text t) (t_font t)
                                  (t_fill t) q (t_fixedToCamera t) (t_visible t))).

(** [text.fixedToCamera = b] *)
Definition text_set_fixedToCamera (text : Value) (b : bool) : M unit :=
  not_nullish text;;
  match text with
  | VRef (RText t) =>
      lift (update_text t (fun t => mkText (t_x t) (t_y t) (t_text t) (t_font t)
                                      (t_fill t) (t_anchor t) b (t_visible t)))
  | _ => mret tt
  end.

(** [text.visible = !text.visible] *)
Definition text_toggle_visible (text : Value) : M unit :=
  not_nullish text;;
  match text with
  | VRef (RText t) =>
      lift (update_text t (fun t => mkText (t_x t) (t_y t) (t_text t) (t_font t)
                                      (t_fill t) (t_anchor t) (t_fixedToCamera t)
                                      (negb (t_visible t))))
  | _ => mret tt
  end.

(** [text.text = v] *)
Definition text_set_text (text : Value) (v : Value) : M unit :=
  not_nullish text;;
  match text with
  | VRef (RText t) =>
      lift (update_text t (fun t => mkText (t_x t) (t_y t) v (t_font t)
                                      (t_fill t) (t_anchor t) (t_fixedToCamera t)
                                      (t_visible t)))
  | _ => mret tt
  end.

(** [game.time.create(autoDestroy)] *)
Definition time_create (game : Value) (autoDestroy : bool) : M Value :=
  the_game game;;
  t ← read (fun w => length (timers w));
  lift (fun w => record (TimeCreate t)
                   (set_timers (timers w ++ [mkTimer autoDestroy 0 0 None false]) w));;
  mret (VRef (RTimer t)).

Definition update_timer (i : nat) (f : Timer -> Timer) (w : World) : World :=
  set_timers (alter f i (timers w)) w.

(** [timer.repeat(delay, repeatCount, listener, context)]: the listener is
    to be called [repeatCount] times, [delay] milliseconds apart. *)
Definition timer_repeat (timer : Value) (delay : Z) (repeatCount : nat)
    (l : Listener) (context : Value) : M unit :=
  t ← the_timer timer;
  lift (record (TimerRepeat timer delay repeatCount));;
  lift (update_timer t (fun tm =>
          mkTimer (tm_autoDestroy tm) delay repeatCount
            (Some (mkBinding l context false)) (tm_running tm))).

(** [timer.start()] *)
Definition timer_start (timer : Value) : M unit :=
  t ← the_timer timer;
  lift (record (TimerStart timer));;
  lift (update_timer t (fun tm =>
          mkTimer (tm_autoDestroy tm) (tm_delay tm) (tm_repeatCount tm)
            (tm_event tm) true)).

(** ** Deferred callbacks *)

#[global] Instance Listener_eq_dec : EqDecision Listener.
Proof. solve_decision. Defined.

#[global] Instance Ref_eq_dec : EqDecision Ref.
Proof. solve_decision. Defined.

#[global] Instance Value_eq_dec : EqDecision Value.
Proof. solve_decision. Defined.

#[global] Instance Binding_eq_dec : EqDecision Binding.
Proof. solve_decision. Defined.

(** What the engine does between two frames: a tween reaches its end, a
    dialogue signals that it has finished, a timer fires. *)
Inductive Event :=
  | TweenComplete (t : nat)
  | DialogueFinished (d : nat)
  | TimerTick (t : nat).

Section Events.

(** The listeners, as the engine calls them back with their context. *)
Variable run_listener : Listener -> Value -> M unit.

(** A signal calls its bindings in the order they were added; a binding
    made by [addOnce] is detached just before its listener is called. *)
Fixpoint dispatch (detach : Binding -> World -> World) (bs : list Binding) : M unit :=
  match bs with
  | [] => mret tt
  | b :: bs' =>
      (if b_once b then lift (detach b) else mret tt);;
      run_listener (b_listener b) (b_context b);;
      dispatch detach bs'
  end.

Definition without (b : Binding) (bs : list Binding) : list Binding :=
  filter (fun b' => b' ≠ b) bs.

Definition dialogue_finished (d : nat) : M unit :=
  bs ← read (fun w => match dialogues w !! d with
                      | Some dl => d_onFinished dl
                      | None => []
                      end);
  dispatch (fun b => update_dialogue d (fun dl =>
              mkDialogue (d_started dl) (without b (d_onFinished dl)))) bs.

(** The end of a tween: the target is at its final value, the tween
    stops, and [onComplete] is dispatched. *)
Definition tween_complete (t : nat) : M unit :=
  tw ← read (fun w => tweens w !! t);
  match tw with
  | Some tw =>
      if tw_running tw then
        lift (update_tween t (fun tw =>
                mkTween (tw_target tw) (tw_kind tw) (tw_rest tw) (tw_duration tw)
                  false (tw_onComplete tw)));;
        match tw_kind tw, tw_target tw with
        | TweenFromX _, VRef (RActor i) => lift (update_actor i (set_x (tw_rest tw)))
        | _, _ => mret tt
        end;;
        dispatch (fun b => update_tween t (fun tw =>
                    mkTween (tw_target tw) (tw_kind tw) (tw_rest tw) (tw_duration tw)
                      (tw_running tw) (without b (tw_onComplete tw))))
          (tw_onComplete tw)
      else mret tt
  | None => mret tt
  end.

(** One expiry of a running timer's event: the count of calls that remain
    goes down by one, the timer stops when none remains, and the listener
    is called. *)
Definition timer_tick (t : nat) : M unit :=
  tm ← read (fun w => timers w !! t);
  match tm with
  | Some tm =>
      match tm_running tm, tm_event tm, tm_repeatCount tm with
      | true, Some b, S n =>
          lift (update_timer t (fun tm =>
                  mkTimer (tm_autoDestroy tm) (tm_delay tm) n (tm_event tm)
                    (negb (Nat.eqb n 0))));;
          run_listener (b_listener b) (b_context b)
      | _, _, _ => mret tt
      end
  | None => mret tt
  end.

Definition deliver (e : Event) : M unit :=
  match e with
  | TweenComplete t => tween_complete t
  | DialogueFinished d => dialogue_finished d
  | TimerTick t => timer_tick t
  end.

End Events.

(** ** Lilja.Level *)

Module Level.
Section Level.

Context `{Sprites}.

(** [settings.zombieID] of the prototype. *)
Definition settings_zombieID : Z := 11.

(** [new Lilja.Level(game, name)] *)
Definition constructor (game : Value) (name : string) : M unit :=
  lift (set_this ∅);;
  lift (put "game" game);;
  lift (put "name" (VStr name));;
  g ← read (get "game");
  m ← add_tilemap g name;
  lift (put "map" m);;
  lift (put "mapLayer" VNull);;
  g ← read (get "game");
  e ← add_group g;
  lift (put "enemies" e).

Definition create : M unit :=
  m ← read (get "map");
  map_addTilesetImage m "tiles" "tiles";;
  m ← read (get "map");
  l ← map_createLayer m "bg";
  lift (put "mapLayer" l);;
  l ← read (get "mapLayer");
  layer_resizeWorld l;;
  m ← read (get "map");
  l ← read (get "layerBg");
  map_setCollisionByExclusion m [1; 10] true l true;;
  g ← read (get "game");
  l ← read (get "mapLayer");
  world_sendToBack g l;;
  g ← read (get "game");
  a ← add_audio g "intromusic";
  lift (put "introMusic" a);;
  g ← read (get "game");
  a ← add_audio g "leveldrums";
  lift (put "bgMusic" a);;
  a ← read (get "bgMusic");
  sound_set_loop a true;;
  a ← read (get "bgMusic");
  sound_set_volume a (6 # 10).

Definition createObjects (player : Value) : M Value :=
  lift (put "player" player);;
  b ← prop_bullets player;
  lift (put "bullets" b);;
  m ← read (get "map");
  e ← read (get "enemies");
  map_createFromObjects m "spawnpoints" settings_zombieID "sprites" e Zombie_new;;
  e ← read (get "enemies");
  p ← read (get "player");
  group_setAll e "chase" p;;
  e ← read (get "enemies");
  l ← read (get "mapLayer");
  group_setAll e "ground" l;;
  read (get "enemies").

(** The collision callbacks.  The engine calls them with two sprites of
    the world. *)
Definition _bulletWallCollision (bullet wall : nat) (w : World) : World :=
  match actors w !! wall with
  | Some wl => update_actor bullet (fun b => Bullet_hit b wl) w
  | None => w
  end.

Definition _playerEnemyProcess (player enemy : nat) (w : World) : bool :=
  match actors w !! player with
  | Some p => negb (invincible p)
  | None => true
  end.

Definition _playerEnemyCollision (player enemy : nat) (w : World) : World :=
  match actors w !! enemy with
  | Some e => update_actor player (fun p => Player_hit p (damage e)) w
  | None => w
  end.

Definition _bulletEnemyCollision (bullet enemy : nat) (w : World) : World :=
  let w :=
    match actors w !! bullet with
    | Some b => update_actor enemy (fun e => Enemy_hit e b) w
    | None => w
    end in
  match actors w !! enemy with
  | Some e => update_actor bullet (fun b => Bullet_hit b e) w
  | None => w
  end.

(** The prototype's functions behind the names given to the engine. *)
Definition on_collide (c : Callback) : nat -> nat -> World -> World :=
  match c with
  | Level_bulletWallCollision => _bulletWallCollision
  | Level_playerEnemyCollision => _playerEnemyCollision
  | Level_bulletEnemyCollision => _bulletEnemyCollision
  | _ => fun _ _ w => w
  end.

Definition on_process (c : Callback) : nat -> nat -> World -> bool :=
  match c with
  | Level_playerEnemyProcess => _playerEnemyProcess
  | _ => fun _ _ _ => true
  end.

(** [this.game.physics.arcade.collide(a, b, collideCallback,
    processCallback, this)] with [a] and [b] read from the level. *)
Definition arcade_collide (a b : string) (cb proc : option Callback) : M unit :=
  g ← read (get "game");
  the_game g;;
  o1 ← read (get a);
  o2 ← read (get b);
  lift (collide on_collide on_process o1 o2 cb proc).

Definition handleCollisions : M unit :=
  arcade_collide "player" "enemies"
    (Some Level_playerEnemyCollision) (Some Level_playerEnemyProcess);;
  arcade_collide "bullets" "mapLayer" (Some Level_bulletWallCollision) None;;
  arcade_collide "bullets" "enemies" (Some Level_bulletEnemyCollision) None;;
  arcade_collide "player" "mapLayer" None None;;
  arcade_collide "enemies" "mapLayer" None None;;
  arcade_collide "giblets" "mapLayer" None None.

Definition intro : M unit :=
  a ← read (get "introMusic");
  sound_play a;;
  p ← read (get "player");
  sprite_set_disableControls p true;;
  p ← read (get "player");
  animations_play p "walk";;
  g ← read (get "game");
  p ← read (get "player");
  walk ← add_tween_from_x g p (-30) 2000;
  tween_onComplete_add walk Level_beginIntro (VRef RThis).

Definition _beginIntro : M unit :=
  p ← read (get "player");
  animations_play p "stand";;
  g ← read (get "game");
  d ← new_DialogueManager g;
  lift (put "dialogue" d);;
  d ← read (get "dialogue");
  n ← read (get "name");
  dialogue_start d (JS_toString n +:+ "_intro");;
  d ← read (get "dialogue");
  dialogue_onFinished_addOnce d Level_startMission (VRef RThis).

Definition _showMissionStartText : M unit :=
  g ← read (get "game");
  cw ← read camera_width;
  ch ← read camera_height;
  t ← add_text g (inject_Z cw / 2) (inject_Z ch / 2) "MISSION START" "32px VT323" "#FFFFFF";
  lift (put "_flash" t);;
  t ← read (get "_flash");
  text_anchor_set t (1 # 2);;
  t ← read (get "_flash");
  text_set_fixedToCamera t true;;
  g ← read (get "game");
  tm ← time_create g false;
  lift (put "_flashTimer" tm);;
  tm ← read (get "_flashTimer");
  timer_repeat tm 600 5 Level_flashToggle (VRef RThis);;
  tm ← read (get "_flashTimer");
  timer_start tm.

Definition _startMission : M unit :=
  p ← read (get "player");
  sprite_set_disableControls p false;;
  p ← read (get "player");
  i ← the_actor p;
  lift (record (MakeHP p));;
  lift (update_actor i Player_makeHP);;
  a ← read (get "introMusic");
  sound_stop a;;
  a ← read (get "bgMusic");
  sound_play a;;
  _showMissionStartText.

(** The anonymous listener of the flash timer. *)
Definition flashToggle : M unit :=
  t ← read (get "_flash");
  text_toggle_visible t.

(** The level's listeners; they are bound with the level as context. *)
Definition run_listener (l : Listener) (context : Value) : M unit :=
  match l with
  | Level_beginIntro => _beginIntro
  | Level_startMission => _startMission
  | Level_flashToggle => flashToggle
  | Main_destroyBullet => mret tt
  end.

(** Everything that can be done to a level: its public methods, and the
    engine delivering a deferred callback. *)
Inductive Op :=
  | Create
  | CreateObjects (player : Value)
  | HandleCollisions
  | Intro
  | Deliver (e : Event).

Definition run (o : Op) : M unit :=
  match o with
  | Create => create
  | CreateObjects player => createObjects player;; mret tt
  | HandleCollisions => handleCollisions
  | Intro => intro
  | Deliver e => deliver run_listener e
  end.

(** The worlds a level can be in: constructed with the game, then used,
    while the rest of the game changes the world around it but assigns no
    property of the level. *)
Inductive reachable : World -> Prop :=
  | reachable_new w0 name :
      reachable (exec (constructor (VRef RGame) name) w0)
  | reachable_run w o :
      reachable w -> reachable (exec (run o) w)
  | reachable_elsewhere w w' :
      reachable w -> this w' = this w -> reachable w'.

End Level.
End Level.

(** ** Lilja.Main *)

(** The main game state: the frame update and its two bullet handlers. *)
Module Main.
Section Main.

Context `{Sprites}.

(** [this.add.tween(bullet.scale).to({x: sx, y: sy}, duration, easing,
    true).onComplete.add(function() { this.destroy(); }, bullet)] *)
Definition tween_scale_then_destroy (bullet : nat) (sx sy duration : Z)
    (w : World) : World :=
  let t := length (tweens w) in
  let b := mkBinding Main_destroyBullet (VRef (RActor bullet)) false in
  let w := record (AddTween t)
             (set_tweens (tweens w ++ [mkTween (VRef (RActor bullet))
                                         (TweenScaleTo sx sy) 0 duration true []]) w) in
  update_tween t (tween_bind b) (record (SignalAdd (VRef (RTween t)) b) w).

Definition _bulletWallCollision (bullet wall : nat) (w : World) : World :=
  let w := update_actor bullet (set_frameName "bang") w in
  let w := update_actor bullet (set_body_enable false) w in
  tween_scale_then_destroy bullet 0 0 200 w.

Definition _bulletEnemyCollision (bullet enemy : nat) (w : World) : World :=
  let w :=
    match actors w !! bullet with
    | Some b => update_actor enemy (fun e => Enemy_onHit e b) w
    | None => w
    end in
  let w := update_actor bullet (set_frameName "bang") w in
  let w := update_actor bullet (set_body_enable false) w in
  tween_scale_then_destroy bullet 0 0 200 w.

Definition on_collide (c : Callback) : nat -> nat -> World -> World :=
  match c with
  | Main_bulletWallCollision => _bulletWallCollision
  | Main_bulletEnemyCollision => _bulletEnemyCollision
  | _ => fun _ _ w => w
  end.

Definition on_process (c : Callback) : nat -> nat -> World -> bool :=
  fun _ _ _ => true.

(** [this.game.physics.arcade.collide(a, b, collideCallback, null, this)]
    with [a] and [b] read from the state; the engine gives a state its
    [game]. *)
Definition arcade_collide (a b : string) (cb : option Callback) : M unit :=
  o1 ← read (get a);
  o2 ← read (get b);
  lift (collide on_collide on_process o1 o2 cb None).

Definition update : M unit :=
  r ← read (get "_running");
  if negb (truthy r) then mret tt
  else
    arcade_collide "player" "layerTerrain" None;;
    arcade_collide "enemies" "layerTerrain" None;;
    arcade_collide "bullets" "layerTerrain" (Some Main_bulletWallCollision);;
    arcade_collide "bullets" "enemies" (Some Main_bulletEnemyCollision);;
    c ← read (get "fpsCounter");
    f ← read fps;
    text_set_text c (VNum f).

(** [sprite.destroy()]: the sprite leaves its group and exists no more. *)
Definition destroy (i : nat) (w : World) : World :=
  update_actor i (set_exists false)
    (set_groups ((fun ms : list nat => filter (fun m => m ≠ i) ms) <$> groups w) w).

(** The anonymous listener of the decay tween, bound with the bullet as
    context. *)
Definition run_listener (l : Listener) (context : Value) : M unit :=
  match l with
  | Main_destroyBullet => i ← the_actor context; lift (destroy i)
  | _ => mret tt
  end.

End Main.
End Main.

(** ** The sprite classes, after the collision rules *)

Section SpecSprites.

(** The constructor of the enemies; the rules say nothing of it. *)
Variable zombie : Z -> Z -> Actor.

(** Modelled from the spec: the methods of the absent classes
    [Lilja.Player], [Lilja.Zombie] and of the bullets, after the table of
    collision rules: a bullet that hits a wall or an enemy is disabled
    (and decays), an enemy hit by a bullet takes the bullet's damage, a
    player hit by an enemy takes the damage it is handed.  The health
    display of [_makeHP] is no part of the sprite. *)
Definition SpecSprites : Sprites := {|
  Player_hit p d := set_health (health p - d) p;
  Player_makeHP p := p;
  Zombie_new := zombie;
  Enemy_hit e b := set_health (health e - damage b) e;
  Enemy_onHit e b := set_health (health e - damage b) e;
  Bullet_hit b other := set_body_enable false b
|}.

End SpecSprites.

(** ** Fixtures *)

(** A sprite of the given box, health and damage. *)
Definition sprite (bx by_ bw bh hp dmg : Z) : Actor :=
  mkActor true bx by_ bw bh true hp dmg false false "" "" VUndefined VUndefined VUndefined.

Definition zombie0 (zx zy : Z) : Actor := sprite zx zy 16 32 3 5.

Definition player0 : Actor :=
  mkActor true 100 300 16 32 true 10 0 false false "" ""
    (VRef (RGroup 0%nat)) VUndefined VUndefined.

(** A world with a player (sprite 0) that owns a group of two bullets
    (sprites 1 and 2, group 0), a [bg] layer with one colliding tile
    (sprite 3) and a [spawnpoints] layer with two zombie markers and one
    other object. *)
Definition world0 : World :=
  mkWorld ∅
    [ player0;
      sprite 200 200 4 4 0 1;
      sprite 160 310 4 4 0 1;
      sprite 0 332 640 16 0 0 ]
    [ [1%nat; 2%nat] ]
    {[ "bg" := [3%nat] ]}
    {[ "spawnpoints" := [mkMapObject 11 150 332; mkMapObject 7 10 10; mkMapObject 11 400 332] ]}
    [] [] [] [] [] 640 480 60 [].

Definition Sprites0 : Sprites := SpecSprites zombie0.

(** The level [level01] over [world0]: constructed, created, populated with
    the player. *)
Definition level0 : World :=
  exec (Level.constructor (VRef RGame) "level01") world0.

Definition level1 : World :=
  exec (Level.run (H := Sprites0) Level.Create) level0.

Definition level2 : World :=
  exec (Level.run (H := Sprites0) (Level.CreateObjects (VRef (RActor 0)))) level1.

Definition invincible_on (a : Actor) : Actor :=
  mkActor (exists_ a) (x a) (y a) (width a) (height a) (body_enable a)
    (health a) (damage a) true (disableControls a) (frameName a)
    (animation a) (bullets a) (chase a) (ground a).

(** [level2] in a grace period of the player, who stands in the first
    zombie. *)
Definition level2_grace : World :=
  update_actor 0 (fun a => invincible_on (set_x 150 a)) level2.

(** [world0] with a map that has no object layer at all, and the level
    [level01] over it, constructed and created. *)
Definition world0_bare : World :=
  mkWorld ∅ (actors world0) (groups world0) (layers world0) ∅
    [] [] [] [] [] 640 480 60 [].

Definition bare1 : World :=
  exec (Level.run (H := Sprites0) Level.Create)
    (exec (Level.constructor (VRef RGame) "level01") world0_bare).

(** The main state over [world0], with two enemies in a group of their own
    (group 1, sprites 4 and 5): one as the engine first gives it to the
    game, one running, and one stopped. *)
Definition main_world : World :=
  mkWorld
    {[ "player" := VRef (RActor 0); "bullets" := VRef (RGroup 0);
       "enemies" := VRef (RGroup 1); "layerTerrain" := VRef (RLayer "bg");
       "fpsCounter" := VRef (RText 0) ]}
    (actors world0 ++ [zombie0 198 190; zombie0 400 300])
    [ [1%nat; 2%nat]; [4%nat; 5%nat] ]
    (layers world0) ∅ [] []
    [ mkText 10 10 (VStr "100 FPS") "" "" 0 false true ]
    [] [] 640 480 60 [].

Definition main_running : World := put "_running" (VBool true) main_world.

Definition main_stopped : World := put "_running" (VBool false) main_world.

(** [main_running] after one frame: the first bullet has hit the first
    enemy, and is disabled and decaying. *)
Definition main_hit : World := exec (Main.update (H := Sprites0)) main_running.

(** The first bullet of [main_hit]. *)
Definition bullet_spent : Actor :=
  set_body_enable false (set_frameName "bang" (sprite 200 200 4 4 0 1)).

(** [level2] through its intro: the walk has started ([level3]), the walk
    is over and the dialogue runs ([level4]), the dialogue has just finished
    ([level5]). *)
Definition level3 : World :=
  exec (Level.run (H := Sprites0) Level.Intro) level2.

Definition level4 : World :=
  exec (Level.run (H := Sprites0) (Level.Deliver (TweenComplete 0))) level3.

Definition level5 : World :=
  exec (Level.run (H := Sprites0) (Level.Deliver (DialogueFinished 0))) level4.

(** The player of [level3], walking in from the left, and of [level4],
    standing where it was. *)
Definition player_walking : Actor :=
  set_x (-30) (set_animation "walk" (set_disableControls true player0)).

Definition player_standing : Actor :=
  set_animation "stand" (set_disableControls true player0).

(** [level2] with one bullet left (sprite 2, which is in the first zombie)
    and one enemy (sprite 4, the first zombie); the same with the player
    standing in the zombie; and the same with the bullet in the ground
    tile, away from the zombie. *)
Definition level2_duel : World := set_groups [ [2%nat]; [4%nat] ] level2.

Definition level2_contact : World := update_actor 0 (set_x 150) level2_duel.

Definition level2_wall : World :=
  update_actor 2 (fun a => set_y 330 (set_x 300 a)) level2_duel.

(** The first zombie of [level2], as [createObjects] leaves it. *)
Definition zombie_chasing : Actor :=
  set_ground (VRef (RLayer "bg")) (set_chase (VRef (RActor 0)) (zombie0 150 300)).


(** ** Vocabulary of the properties *)

(** The log entries that are overlap passes. *)
Definition is_pass (c : Call) : bool :=
  match c with
  | Collide _ _ _ _ => true
  | _ => false
  end.

(** The overlap passes of a log, in the order they were made. *)
Definition passes (l : list Call) : list Call := filter (fun c => is_pass c = true) l.

(** A computation that leaves the property [k] of the state object as it
    found it, whether it returns or throws. *)
Definition keeps {A : Type} (k : string) (m : M A) : Prop :=
  forall w, this (exec m w) !! k = this w !! k.

(** The properties of a level that only its constructor assigns, and the two
    that nothing assigns. *)
Definition unassigned : list string :=
  ["game"; "name"; "map"; "enemies"; "giblets"; "layerBg"].

(** The spawn data of the level's enemy marker: the objects of the
    [spawnpoints] layer whose gid is [settings.zombieID]. *)
Definition spawn_data (w : World) : list MapObject :=
  filter (fun o => gid o = Level.settings_zombieID)
    (default [] (objects w !! "spawnpoints")).

(** The tweens of the world that animate the sprite [i]. *)
Definition tweens_of (i : nat) (w : World) : list Tween :=
  filter (fun t => tw_target t = VRef (RActor i)) (tweens w).

(** A computation that keeps an invariant of the world, whether it returns
    or throws. *)
Definition preserves {A : Type} (P : World -> Prop) (m : M A) : Prop :=
  forall w, P w -> P (exec m w).

(** What a frame of the main state does not do to the sprite [b], which had
    state [a] in the world [w]: the sprite is as it was, no callback was
    called on it, and it has no new tween. *)
Definition untouched (w : World) (b : nat) (a : Actor) (w' : World) : Prop :=
  actors w' !! b = Some a
  /\ (forall c i j, Invoke c i j ∈ log w' -> i = b \/ j = b -> Invoke c i j ∈ log w)
  /\ tweens_of b w' = tweens_of b w.

(** The engine delivering deferred callbacks to the level, one after the
    other. *)
Fixpoint deliver_all `{Sprites} (es : list Event) : M unit :=
  match es with
  | [] => mret tt
  | e :: es' => deliver Level.run_listener e;; deliver_all es'
  end.

(** The binding [_beginIntro] makes on the dialogue's [onFinished], and the
    one [_showMissionStartText] gives the flash timer. *)
Definition startMission_once : Binding :=
  mkBinding Level_startMission (VRef RThis) true.

Definition flash_event : Binding :=
  mkBinding Level_flashToggle (VRef RThis) false.

(** The engine calls of one run of [_startMission], in program order. *)
Definition mission_start_calls (w : World) : list Call :=
  [ MakeHP (get "player" w);
    AudioStop (get "introMusic" w);
    AudioPlay (get "bgMusic" w);
    AddText (length (texts w));
    TimeCreate (length (timers w));
    TimerRepeat (VRef (RTimer (length (timers w)))) 600 5;
    TimerStart (VRef (RTimer (length (timers w)))) ].

(** The callbacks of a log that were called with the sprite [b] first, that
    is, with [b] as the bullet of a bullet handler. *)
Definition is_hit_of (b : nat) (c : Call) : bool :=
  match c with
  | Invoke _ i _ => Nat.eqb i b
  | _ => false
  end.

Definition hits_of (b : nat) (l : list Call) : list Call :=
  filter (fun c => is_hit_of b c = true) l.

(** The state of the sprite [b] within a frame of the main state that began
    with [n] handler calls on [b] in the log and [m] tweens of [b]: not hit
    in this frame, or hit once, given one more tween, and disabled. *)
Definition hit_at_most_once (b n m : nat) (w : World) : Prop :=
  (length (hits_of b (log w)) = n /\ length (tweens_of b w) = m)
  \/ (length (hits_of b (log w)) = S n /\ length (tweens_of b w) = S m
      /\ body_enable <$> actors w !! b = Some false).

(** * Properties *)

(** ** The world under an overlap pass *)

Ltac run_monad :=
  unfold exec, mbind, M_bind, mret, M_ret, read, lift, throw in *; simpl in *.

Lemma this_record c w : this (record c w) = this w.
Proof. reflexivity. Qed.

Lemma get_record k c w : get k (record c w) = get k w.
Proof. reflexivity. Qed.

Lemma this_update_actor i f w : this (update_actor i f w) = this w.
Proof. reflexivity. Qed.

Lemma groups_update_actor i f w : groups (update_actor i f w) = groups w.
Proof. reflexivity. Qed.

Lemma layers_update_actor i f w : layers (update_actor i f w) = layers w.
Proof. reflexivity. Qed.

Lemma log_update_actor i f w : log (update_actor i f w) = log w.
Proof. reflexivity. Qed.

Lemma actors_update_actor_ne i f w k :
  k ≠ i -> actors (update_actor i f w) !! k = actors w !! k.
Proof. intros Hk. simpl. by apply list_lookup_alter_ne. Qed.

Lemma actors_update_actor_eq i f w a :
  actors w !! i = Some a -> actors (update_actor i f w) !! i = Some (f a).
Proof. intros Ha. simpl. by rewrite list_lookup_alter_eq, Ha. Qed.

Section Passes.

Variable on_collide : Callback -> nat -> nat -> World -> World.
Variable on_process : Callback -> nat -> nat -> World -> bool.

(** An invariant of the world holds after the pairs of a pass when every
    call of the collide callback keeps it; the callback is only ever
    called on a pair of members whose bodies can collide, after the
    process callback let the pair through. *)
Lemma collide_all_ind (P : World -> Prop) cb proc ms js :
  (forall c i j a b w,
      cb = Some c -> i ∈ ms -> j ∈ js ->
      actors w !! i = Some a -> actors w !! j = Some b ->
      collidable a b = true ->
      match proc with Some p => on_process p i j w | None => true end = true ->
      P w -> P (on_collide c i j (record (Invoke c i j) w))) ->
  forall w, P w -> P (collide_all on_collide on_process cb proc ms js w).
Proof.
  intros Hstep. unfold collide_all.
  assert (Hone : forall i, i ∈ ms -> forall js', js' ⊆ js -> forall w,
               P w -> P (collide_one on_collide on_process cb proc i js' w)).
  { intros i Hi js'. unfold collide_one.
    induction js' as [|j js' IH]; intros Hsub w Hw; simpl; [done|].
    apply IH; [set_solver|].
    unfold collide_pair.
    destruct (actors w !! i) as [a|] eqn:Ea; [|done].
    destruct (actors w !! j) as [b|] eqn:Eb; [|done].
    destruct (collidable a b) eqn:Ec; [|done].
    destruct (match proc with Some p => on_process p i j w | None => true end) eqn:Ep;
      [|done].
    destruct cb as [c|]; [|done].
    eapply Hstep; eauto. set_solver. }
  assert (Hall : forall ms', ms' ⊆ ms -> forall w,
               P w -> P (foldl (fun w i => collide_one on_collide on_process cb proc i js w) w ms')).
  { induction ms' as [|i ms' IH]; intros Hsub w Hw; simpl; [done|].
    apply IH; [set_solver|].
    apply Hone; [set_solver|done|done]. }
  intros w Hw. by apply Hall.
Qed.

(** A pass without a collide callback only records itself. *)
Lemma collide_no_callback o1 o2 proc w :
  collide on_collide on_process o1 o2 None proc w = record (Collide o1 o2 None proc) w.
Proof.
  unfold collide.
  apply (collide_all_ind (fun w' => w' = record (Collide o1 o2 None proc) w));
    [intros; discriminate|done].
Qed.

End Passes.

Lemma update_actor_set i f w :
  update_actor i f w = set_actors (actors (update_actor i f w)) w.
Proof. reflexivity. Qed.

Lemma members_same o w w' :
  groups w' = groups w -> layers w' = layers w -> members o w' = members o w.
Proof. intros Hg Hl. unfold members. by rewrite Hg, Hl. Qed.

Lemma passes_snoc_pass l c : is_pass c = true -> passes (l ++ [c]) = passes l ++ [c].
Proof.
  intros Hc. unfold passes. rewrite filter_app. f_equal.
  by rewrite filter_cons_True, filter_nil.
Qed.

Lemma passes_snoc_other l c : is_pass c = false -> passes (l ++ [c]) = passes l.
Proof.
  intros Hc. unfold passes. rewrite filter_app.
  rewrite filter_cons_False, filter_nil by congruence. apply app_nil_r.
Qed.

(** ** The level's overlap passes *)

Section LevelPasses.

Context `{Sprites}.

(** A collision callback of the level touches nothing but the two sprites
    it is called with. *)
Lemma on_collide_frame c i j w :
  this (Level.on_collide c i j w) = this w
  /\ groups (Level.on_collide c i j w) = groups w
  /\ layers (Level.on_collide c i j w) = layers w
  /\ log (Level.on_collide c i j w) = log w
  /\ forall k, k ≠ i ->
       k ≠ j \/ c = Level_bulletWallCollision \/ c = Level_playerEnemyCollision ->
       actors (Level.on_collide c i j w) !! k = actors w !! k.
Proof.
  destruct c; simpl;
    unfold Level._bulletWallCollision, Level._playerEnemyCollision,
      Level._bulletEnemyCollision;
    repeat match goal with
      | |- context [match actors ?w !! ?i with _ => _ end] =>
          destruct (actors w !! i)
      end;
    rewrite ?this_update_actor, ?groups_update_actor, ?layers_update_actor,
      ?log_update_actor;
    repeat split; try done;
    intros k Hi [Hj|[Hc|Hc]]; try discriminate;
    by rewrite ?actors_update_actor_ne by done.
Qed.

(** What one pass of the level does to the world around the sprites it
    ranges over. *)
Lemma pass_frame o1 o2 cb proc w :
  let w' := collide Level.on_collide Level.on_process o1 o2 cb proc w in
  this w' = this w
  /\ groups w' = groups w
  /\ layers w' = layers w
  /\ passes (log w') = passes (log w) ++ [Collide o1 o2 cb proc]
  /\ (forall k, k ∉ members o1 w ->
        k ∉ members o2 w \/ cb = Some Level_bulletWallCollision
        \/ cb = Some Level_playerEnemyCollision ->
        actors w' !! k = actors w !! k)
  /\ (forall c i j, Invoke c i j ∈ log w' ->
        Invoke c i j ∈ log w \/ cb = Some c).
Proof.
  simpl. unfold collide.
  set (w1 := record (Collide o1 o2 cb proc) w).
  apply (collide_all_ind Level.on_collide Level.on_process
           (fun w' =>
              this w' = this w
              /\ groups w' = groups w
              /\ layers w' = layers w
              /\ passes (log w') = passes (log w) ++ [Collide o1 o2 cb proc]
              /\ (forall k, k ∉ members o1 w ->
                    k ∉ members o2 w \/ cb = Some Level_bulletWallCollision
                    \/ cb = Some Level_playerEnemyCollision ->
                    actors w' !! k = actors w !! k)
              /\ (forall c i j, Invoke c i j ∈ log w' ->
                    Invoke c i j ∈ log w \/ cb = Some c))).
  - intros c i j a b w' Hcb Hi Hj _ _ _ _ (Ht & Hg & Hl & Hp & Ha & Hv).
    destruct (on_collide_frame c i j (record (Invoke c i j) w'))
      as (Ft & Fg & Fl & Flog & Fa).
    rewrite Ft, Fg, Fl, Flog. simpl.
    repeat split; try done.
    + by rewrite passes_snoc_other.
    + intros k K1 K2. rewrite Fa; [simpl; by apply Ha|set_solver|].
      destruct K2 as [K2|[K2|K2]]; [left; set_solver|right; left|right; right];
        congruence.
    + intros c' i' j' Hin. apply elem_of_app in Hin as [Hin|Hin].
      * by apply Hv.
      * apply list_elem_of_singleton in Hin. right. congruence.
  - subst w1. simpl. repeat split; try done.
    + by rewrite passes_snoc_pass.
    + intros c i j Hin. apply elem_of_app in Hin as [Hin|Hin]; [by left|].
      apply list_elem_of_singleton in Hin. discriminate.
Qed.

(** The player-enemies pass of an invincible player calls no callback. *)
Lemma pass_player_invincible p a o2 w :
  actors w !! p = Some a ->
  invincible a = true ->
  collide Level.on_collide Level.on_process (VRef (RActor p)) o2
    (Some Level_playerEnemyCollision) (Some Level_playerEnemyProcess) w
  = record (Collide (VRef (RActor p)) o2
              (Some Level_playerEnemyCollision) (Some Level_playerEnemyProcess)) w.
Proof.
  intros Ha Hinv. unfold collide.
  apply (collide_all_ind Level.on_collide Level.on_process
           (fun w' => w' = record (Collide (VRef (RActor p)) o2
              (Some Level_playerEnemyCollision) (Some Level_playerEnemyProcess)) w));
    [|done].
  intros c i j a' b w' _ Hi _ Ha' _ _ Hproc ->. exfalso.
  simpl in Hi. apply list_elem_of_singleton in Hi as ->.
  simpl in Hproc, Ha'. unfold Level._playerEnemyProcess in Hproc. simpl in Hproc.
  rewrite Ha in Hproc. rewrite Hinv in Hproc. discriminate.
Qed.

Lemma arcade_collide_ok a b cb proc w :
  get "game" w = VRef RGame ->
  Level.arcade_collide a b cb proc w
  = Ok tt (collide Level.on_collide Level.on_process (get a w) (get b w) cb proc w).
Proof. intros Hg. unfold Level.arcade_collide. run_monad. by rewrite Hg. Qed.

Lemma arcade_collide_throw a b cb proc w :
  get "game" w ≠ VRef RGame ->
  Level.arcade_collide a b cb proc w = Throw (TypeError "game") w.
Proof.
  intros Hg. unfold Level.arcade_collide. run_monad.
  destruct (get "game" w) as [| | | | |[]]; done.
Qed.

Lemma get_pass k o1 o2 cb proc w :
  get k (collide Level.on_collide Level.on_process o1 o2 cb proc w) = get k w.
Proof. unfold get. by rewrite (proj1 (pass_frame o1 o2 cb proc w)). Qed.

End LevelPasses.

(** ** Properties of the level that no operation assigns *)

Lemma keeps_bind {A B : Type} k (m : M A) (f : A -> M B) :
  keeps k m -> (forall a, keeps k (f a)) -> keeps k (m ≫= f).
Proof.
  intros Hm Hf w. specialize (Hm w). unfold exec, mbind, M_bind in *.
  destruct (m w) as [a w'|e w']; simpl in *; [|done].
  rewrite <- Hm. apply Hf.
Qed.

Lemma keeps_ret {A : Type} k (a : A) : keeps k (mret a).
Proof. by intros w. Qed.

Lemma keeps_read {A : Type} k (f : World -> A) : keeps k (read f).
Proof. by intros w. Qed.

Lemma keeps_throw {A : Type} k e : keeps k (throw (A := A) e).
Proof. by intros w. Qed.

Lemma keeps_lift k (f : World -> World) :
  (forall w, this (f w) = this w) -> keeps k (lift f).
Proof. intros Hf w. unfold exec, lift. simpl. by rewrite Hf. Qed.

Lemma keeps_put k k' v : k ≠ k' -> keeps k (lift (put k' v)).
Proof. intros Hk w. unfold exec, lift, put. simpl. by rewrite lookup_insert_ne. Qed.

Lemma this_foldl_update_actor (f : Actor -> Actor) l w :
  this (foldl (fun w i => update_actor i f w) w l) = this w.
Proof.
  revert w. induction l as [|i l IH]; intros w; simpl; [done|].
  by rewrite IH, this_update_actor.
Qed.

Ltac this_unchanged :=
  intros;
  unfold update_audio, update_text, update_timer, update_tween,
    update_dialogue, update_actor, record;
  repeat case_match; reflexivity.

Ltac keeps_step :=
  match goal with
  | |- keeps _ (mbind _ _) => apply keeps_bind; [|intros]
  | |- keeps _ (mret _) => apply keeps_ret
  | |- keeps _ (read _) => apply keeps_read
  | |- keeps _ (throw _) => apply keeps_throw
  | |- keeps _ (lift (put _ _)) => apply keeps_put; done
  | |- keeps _ (lift _) => apply keeps_lift; this_unchanged
  | |- keeps _ (match ?v with _ => _ end) => destruct v
  end.

Ltac keeps_engine :=
  unfold the_game, the_map, the_layer, the_group, the_actor, the_audio,
    the_dialogue, the_text, the_timer, not_nullish;
  repeat keeps_step.

Section Keeps.

Context `{Sprites}.
Variable k : string.

Lemma keeps_add_tilemap g name : keeps k (add_tilemap g name).
Proof. unfold add_tilemap. keeps_engine. Qed.

Lemma keeps_add_group g : keeps k (add_group g).
Proof. unfold add_group. keeps_engine. Qed.

Lemma keeps_add_audio g key : keeps k (add_audio g key).
Proof. unfold add_audio. keeps_engine. Qed.

Lemma keeps_sound_set_loop s b : keeps k (sound_set_loop s b).
Proof. unfold sound_set_loop. keeps_engine. Qed.

Lemma keeps_sound_set_volume s q : keeps k (sound_set_volume s q).
Proof. unfold sound_set_volume. keeps_engine. Qed.

Lemma keeps_sound_play s : keeps k (sound_play s).
Proof. unfold sound_play. keeps_engine. Qed.

Lemma keeps_sound_stop s : keeps k (sound_stop s).
Proof. unfold sound_stop. keeps_engine. Qed.

Lemma keeps_map_addTilesetImage m a b : keeps k (map_addTilesetImage m a b).
Proof. unfold map_addTilesetImage. keeps_engine. Qed.

Lemma keeps_map_createLayer m n : keeps k (map_createLayer m n).
Proof. unfold map_createLayer. keeps_engine. Qed.

Lemma keeps_layer_resizeWorld l : keeps k (layer_resizeWorld l).
Proof. unfold layer_resizeWorld. keeps_engine. Qed.

Lemma keeps_map_setCollisionByExclusion m i c l r :
  keeps k (map_setCollisionByExclusion m i c l r).
Proof. unfold map_setCollisionByExclusion. keeps_engine. Qed.

Lemma keeps_world_sendToBack g c : keeps k (world_sendToBack g c).
Proof. unfold world_sendToBack. keeps_engine. Qed.

Lemma keeps_prop_bullets v : keeps k (prop_bullets v).
Proof. unfold prop_bullets. keeps_engine. Qed.

Lemma keeps_map_createFromObjects m n i key g C :
  keeps k (map_createFromObjects m n i key g C).
Proof. unfold map_createFromObjects. keeps_engine. Qed.

Lemma keeps_group_setAll g key v : keeps k (group_setAll g key v).
Proof.
  unfold group_setAll. keeps_engine.
  apply keeps_lift. intros w. apply this_foldl_update_actor.
Qed.

Lemma keeps_sprite_set_disableControls s b : keeps k (sprite_set_disableControls s b).
Proof. unfold sprite_set_disableControls. keeps_engine. Qed.

Lemma keeps_animations_play s n : keeps k (animations_play s n).
Proof. unfold animations_play. keeps_engine. Qed.

Lemma keeps_add_tween_from_x g t x0 d : keeps k (add_tween_from_x g t x0 d).
Proof. unfold add_tween_from_x. keeps_engine. Qed.

Lemma keeps_tween_onComplete_add t l c : keeps k (tween_onComplete_add t l c).
Proof. unfold tween_onComplete_add. keeps_engine. Qed.

Lemma keeps_new_DialogueManager g : keeps k (new_DialogueManager g).
Proof. unfold new_DialogueManager. keeps_engine. Qed.

Lemma keeps_dialogue_start d key : keeps k (dialogue_start d key).
Proof. unfold dialogue_start. keeps_engine. Qed.

Lemma keeps_dialogue_onFinished_addOnce d l c :
  keeps k (dialogue_onFinished_addOnce d l c).
Proof. unfold dialogue_onFinished_addOnce. keeps_engine. Qed.

Lemma keeps_add_text g tx ty t f c : keeps k (add_text g tx ty t f c).
Proof. unfold add_text. keeps_engine. Qed.

Lemma keeps_text_anchor_set t q : keeps k (text_anchor_set t q).
Proof. unfold text_anchor_set. keeps_engine. Qed.

Lemma keeps_text_set_fixedToCamera t b : keeps k (text_set_fixedToCamera t b).
Proof. unfold text_set_fixedToCamera. keeps_engine. Qed.

Lemma keeps_text_toggle_visible t : keeps k (text_toggle_visible t).
Proof. unfold text_toggle_visible. keeps_engine. Qed.

Lemma keeps_time_create g b : keeps k (time_create g b).
Proof. unfold time_create. keeps_engine. Qed.

Lemma keeps_timer_repeat t d n l c : keeps k (timer_repeat t d n l c).
Proof. unfold timer_repeat. keeps_engine. Qed.

Lemma keeps_timer_start t : keeps k (timer_start t).
Proof. unfold timer_start. keeps_engine. Qed.

Lemma keeps_the_actor v : keeps k (the_actor v).
Proof. keeps_engine. Qed.

Lemma keeps_record c : keeps k (lift (record c)).
Proof. keeps_engine. Qed.

Lemma keeps_update_actor i f : keeps k (lift (update_actor i f)).
Proof. keeps_engine. Qed.

Lemma keeps_arcade_collide a b cb proc : keeps k (Level.arcade_collide a b cb proc).
Proof.
  unfold Level.arcade_collide. keeps_engine.
  apply keeps_lift. intros w. apply pass_frame.
Qed.

End Keeps.

Create HintDb keeps.

#[global] Hint Resolve keeps_ret keeps_read keeps_throw
  keeps_add_tilemap keeps_add_group keeps_add_audio keeps_sound_set_loop
  keeps_sound_set_volume keeps_sound_play keeps_sound_stop
  keeps_map_addTilesetImage keeps_map_createLayer keeps_layer_resizeWorld
  keeps_map_setCollisionByExclusion keeps_world_sendToBack keeps_prop_bullets
  keeps_map_createFromObjects keeps_group_setAll
  keeps_sprite_set_disableControls keeps_animations_play
  keeps_add_tween_from_x keeps_tween_onComplete_add keeps_new_DialogueManager
  keeps_dialogue_start keeps_dialogue_onFinished_addOnce keeps_add_text
  keeps_text_anchor_set keeps_text_set_fixedToCamera keeps_text_toggle_visible
  keeps_time_create keeps_timer_repeat keeps_timer_start
  keeps_the_actor keeps_record keeps_update_actor
  keeps_arcade_collide : keeps.

Ltac keeps_level :=
  first
    [ solve [auto with keeps]
    | apply keeps_put; done
    | apply keeps_bind; [keeps_level | intros; keeps_level] ].

Ltac each_unassigned Hk :=
  unfold unassigned in Hk;
  repeat (apply elem_of_cons in Hk as [->|Hk]);
  [..|by apply elem_of_nil in Hk].

Section LevelKeeps.

Context `{Sprites}.

Lemma keeps_create k : k ∈ unassigned -> keeps k Level.create.
Proof. intros Hk. each_unassigned Hk; unfold Level.create; keeps_level. Qed.

Lemma keeps_createObjects k p : k ∈ unassigned -> keeps k (Level.createObjects p).
Proof. intros Hk. each_unassigned Hk; unfold Level.createObjects; keeps_level. Qed.

Lemma keeps_handleCollisions k : keeps k Level.handleCollisions.
Proof. unfold Level.handleCollisions. keeps_level. Qed.

Lemma keeps_intro k : k ∈ unassigned -> keeps k Level.intro.
Proof. intros Hk. each_unassigned Hk; unfold Level.intro; keeps_level. Qed.

Lemma keeps_beginIntro k : k ∈ unassigned -> keeps k Level._beginIntro.
Proof. intros Hk. each_unassigned Hk; unfold Level._beginIntro; keeps_level. Qed.

Lemma keeps_showMissionStartText k :
  k ∈ unassigned -> keeps k Level._showMissionStartText.
Proof.
  intros Hk. each_unassigned Hk; unfold Level._showMissionStartText; keeps_level.
Qed.

Lemma keeps_startMission k : k ∈ unassigned -> keeps k Level._startMission.
Proof.
  intros Hk. pose proof (keeps_showMissionStartText k Hk) as Hs.
  unfold Level._startMission.
  keeps_level.
Qed.

Lemma keeps_run_listener k l c : k ∈ unassigned -> keeps k (Level.run_listener l c).
Proof.
  intros Hk. destruct l; simpl.
  - by apply keeps_beginIntro.
  - by apply keeps_startMission.
  - unfold Level.flashToggle. keeps_level.
  - apply keeps_ret.
Qed.

Lemma keeps_dispatch k detach bs :
  k ∈ unassigned ->
  (forall b w, this (detach b w) = this w) ->
  keeps k (dispatch Level.run_listener detach bs).
Proof.
  intros Hk Hd. induction bs as [|b bs IH]; simpl; [apply keeps_ret|].
  repeat (apply keeps_bind; [|intros]); try done.
  - destruct (b_once b); [by apply keeps_lift|apply keeps_ret].
  - by apply keeps_run_listener.
Qed.

Lemma keeps_deliver k e : k ∈ unassigned -> keeps k (deliver Level.run_listener e).
Proof.
  intros Hk. destruct e as [t|d|t]; simpl.
  - unfold tween_complete. apply keeps_bind; [apply keeps_read|].
    intros [tw|]; [|apply keeps_ret].
    destruct (tw_running tw); [|apply keeps_ret].
    repeat (apply keeps_bind; [|intros]).
    + apply keeps_lift. this_unchanged.
    + destruct (tw_kind tw); [|apply keeps_ret].
      destruct (tw_target tw) as [| | | | |[]]; try apply keeps_ret.
      apply keeps_lift. this_unchanged.
    + apply keeps_dispatch; [done|]. this_unchanged.
  - unfold dialogue_finished. apply keeps_bind; [apply keeps_read|].
    intros bs. apply keeps_dispatch; [done|]. this_unchanged.
  - unfold timer_tick. apply keeps_bind; [apply keeps_read|].
    intros [tm|]; [|apply keeps_ret].
    destruct (tm_running tm); [|apply keeps_ret].
    destruct (tm_event tm) as [b|]; [|apply keeps_ret].
    destruct (tm_repeatCount tm) as [|n]; [apply keeps_ret|].
    apply keeps_bind; [apply keeps_lift; this_unchanged|].
    intros _. by apply keeps_run_listener.
Qed.

Lemma keeps_run k o : k ∈ unassigned -> keeps k (Level.run o).
Proof.
  intros Hk. destruct o; simpl.
  - by apply keeps_create.
  - apply keeps_bind; [by apply keeps_createObjects|intros; apply keeps_ret].
  - apply keeps_handleCollisions.
  - by apply keeps_intro.
  - by apply keeps_deliver.
Qed.

(** A level in use still has the game and the map its constructor gave
    it, and neither [giblets] nor [layerBg]. *)
Lemma reachable_inv w :
  Level.reachable w ->
  get "game" w = VRef RGame
  /\ (exists name, get "map" w = VRef (RMap name))
  /\ this w !! "giblets" = None
  /\ this w !! "layerBg" = None.
Proof.
  induction 1 as [w0 name|w o Hw (Hg & [name Hm] & Hgib & Hbg)
                 |w w' Hw (Hg & [name Hm] & Hgib & Hbg) Ht].
  - unfold get. run_monad. repeat split; try done. by exists name.
  - unfold get in *.
    rewrite !(keeps_run _ o) by (unfold unassigned; set_solver).
    repeat split; try done. by exists name.
  - unfold get in *. rewrite Ht.
    repeat split; try done. by exists name.
Qed.

(** A level in use still has the enemy group its constructor made. *)
Lemma reachable_enemies w :
  Level.reachable w -> exists g, get "enemies" w = VRef (RGroup g).
Proof.
  induction 1 as [w0 name|w o Hw [g Hg]|w w' Hw [g Hg] Ht].
  - unfold get. run_monad. eauto.
  - exists g. unfold get in *.
    by rewrite (keeps_run _ o) by (unfold unassigned; set_solver).
  - exists g. unfold get in *. by rewrite Ht.
Qed.

(** A level in use still has the name its constructor gave it. *)
Lemma reachable_name w :
  Level.reachable w -> exists name, get "name" w = VStr name.
Proof.
  induction 1 as [w0 name|w o Hw [n Hn]|w w' Hw [n Hn] Ht].
  - unfold get. run_monad. eauto.
  - exists n. unfold get in *.
    by rewrite (keeps_run _ o) by (unfold unassigned; set_solver).
  - exists n. unfold get in *. by rewrite Ht.
Qed.

End LevelKeeps.

(** ** The collision sweep of the level *)

Section LevelSweep.

Context `{Sprites}.

Local Abbreviation pass := (collide Level.on_collide Level.on_process).

Lemma this_pass o1 o2 cb proc w : this (pass o1 o2 cb proc w) = this w.
Proof. apply pass_frame. Qed.

Lemma arcade_collide_same w0 a b cb proc w :
  this w = this w0 ->
  get "game" w0 = VRef RGame ->
  Level.arcade_collide a b cb proc w
  = Ok tt (pass (get a w0) (get b w0) cb proc w).
Proof.
  intros Ht Hg. unfold get in *. rewrite <- Ht in *.
  by apply arcade_collide_ok.
Qed.

(** The sweep, pass by pass. *)
Lemma handleCollisions_ok w :
  get "game" w = VRef RGame ->
  let w1 := pass (get "player" w) (get "enemies" w)
              (Some Level_playerEnemyCollision) (Some Level_playerEnemyProcess) w in
  let w2 := pass (get "bullets" w) (get "mapLayer" w)
              (Some Level_bulletWallCollision) None w1 in
  let w3 := pass (get "bullets" w) (get "enemies" w)
              (Some Level_bulletEnemyCollision) None w2 in
  Level.handleCollisions w
  = Ok tt (record (Collide (get "giblets" w) (get "mapLayer" w) None None)
             (record (Collide (get "enemies" w) (get "mapLayer" w) None None)
                (record (Collide (get "player" w) (get "mapLayer" w) None None) w3))).
Proof.
  intros Hg. simpl. unfold Level.handleCollisions, mbind, M_bind.
  do 6 (rewrite (arcade_collide_same w);
        [|by rewrite ?this_record, ?this_pass|done]).
  by rewrite !collide_no_callback.
Qed.

End LevelSweep.

Section LevelSweepClaims.

Context `{Sprites}.

Local Abbreviation pass := (collide Level.on_collide Level.on_process).

(** The passes a sweep adds to the log. *)
Lemma sweep_passes w :
  get "game" w = VRef RGame ->
  exists w',
    Level.handleCollisions w = Ok tt w'
    /\ last (log w') = Some (Collide (get "giblets" w) (get "mapLayer" w) None None)
    /\ passes (log w')
       = passes (log w)
         ++ [ Collide (get "player" w) (get "enemies" w)
                (Some Level_playerEnemyCollision) (Some Level_playerEnemyProcess);
              Collide (get "bullets" w) (get "mapLayer" w)
                (Some Level_bulletWallCollision) None;
              Collide (get "bullets" w) (get "enemies" w)
                (Some Level_bulletEnemyCollision) None;
              Collide (get "player" w) (get "mapLayer" w) None None;
              Collide (get "enemies" w) (get "mapLayer" w) None None ]
         ++ [ Collide (get "giblets" w) (get "mapLayer" w) None None ].
Proof.
  intros Hg.
  eexists. split; [by apply handleCollisions_ok|]. split.
  { simpl. by rewrite last_snoc. }
  simpl. rewrite !passes_snoc_pass by done.
  destruct (pass_frame (get "bullets" w) (get "enemies" w)
              (Some Level_bulletEnemyCollision) None
              (pass (get "bullets" w) (get "mapLayer" w)
                 (Some Level_bulletWallCollision) None
                 (pass (get "player" w) (get "enemies" w)
                    (Some Level_playerEnemyCollision)
                    (Some Level_playerEnemyProcess) w)))
    as (_ & _ & _ & -> & _).
  destruct (pass_frame (get "bullets" w) (get "mapLayer" w)
              (Some Level_bulletWallCollision) None
              (pass (get "player" w) (get "enemies" w)
                 (Some Level_playerEnemyCollision)
                 (Some Level_playerEnemyProcess) w))
    as (_ & _ & _ & -> & _).
  destruct (pass_frame (get "player" w) (get "enemies" w)
              (Some Level_playerEnemyCollision)
              (Some Level_playerEnemyProcess) w)
    as (_ & _ & _ & -> & _).
  by rewrite <- !app_assoc.
Qed.

(** C2.  Every call of [handleCollisions] on a level makes its overlap
    passes in one fixed order: player against enemies first, then bullets
    against the terrain layer, then bullets against enemies, then player
    against terrain, then enemies against terrain; each is made once, and
    the pass that follows them ranges over no sprite. *)
Theorem handleCollisions_pass_order (w : World) :
  Level.reachable w ->
  exists w',
    Level.handleCollisions w = Ok tt w'
    /\ passes (log w')
       = passes (log w)
         ++ [ Collide (get "player" w) (get "enemies" w)
                (Some Level_playerEnemyCollision) (Some Level_playerEnemyProcess);
              Collide (get "bullets" w) (get "mapLayer" w)
                (Some Level_bulletWallCollision) None;
              Collide (get "bullets" w) (get "enemies" w)
                (Some Level_bulletEnemyCollision) None;
              Collide (get "player" w) (get "mapLayer" w) None None;
              Collide (get "enemies" w) (get "mapLayer" w) None None ]
         ++ [ Collide VUndefined (get "mapLayer" w) None None ]
    /\ members VUndefined w' = [].
Proof.
  intros Hr. destruct (reachable_inv w Hr) as (Hg & _ & Hgib & _).
  destruct (sweep_passes w Hg) as (w' & Hrun & _ & Hp).
  exists w'. split; [done|]. split; [|done].
  rewrite Hp. unfold get at 11. by rewrite Hgib.
Qed.

(** C9.  Every call of [handleCollisions] on a level ends with a sixth
    pass, of [giblets] against the map layer; no operation of the level
    assigns [giblets], so the group of this pass is always [undefined]. *)
Theorem handleCollisions_giblets_undefined (w : World) :
  Level.reachable w ->
  this w !! "giblets" = None
  /\ exists w',
       Level.handleCollisions w = Ok tt w'
       /\ last (log w') = Some (Collide VUndefined (get "mapLayer" w) None None)
       /\ passes (log w') !! (length (passes (log w)) + 5)%nat
          = Some (Collide VUndefined (get "mapLayer" w) None None).
Proof.
  intros Hr. destruct (reachable_inv w Hr) as (Hg & _ & Hgib & _).
  split; [done|].
  destruct (sweep_passes w Hg) as (w' & Hrun & Hl & Hp).
  assert (Hu : get "giblets" w = VUndefined) by (unfold get; by rewrite Hgib).
  rewrite Hu in Hl, Hp.
  exists w'. split; [done|]. split; [done|].
  rewrite Hp, app_assoc. apply list_lookup_middle. by rewrite length_app.
Qed.

(** C1.  While the player is invincible, the sweep never calls the
    player-enemy callback and leaves the player's sprite, and so its
    health, as it was. *)
Theorem invincible_player_unharmed (w : World) (p : nat) (a : Actor) :
  Level.reachable w ->
  get "player" w = VRef (RActor p) ->
  actors w !! p = Some a ->
  invincible a = true ->
  p ∉ members (get "bullets" w) w ->
  p ∉ members (get "enemies" w) w ->
  pass (get "player" w) (get "enemies" w)
    (Some Level_playerEnemyCollision) (Some Level_playerEnemyProcess) w
  = record (Collide (get "player" w) (get "enemies" w)
              (Some Level_playerEnemyCollision) (Some Level_playerEnemyProcess)) w
  /\ exists w',
       Level.handleCollisions w = Ok tt w'
       /\ actors w' !! p = Some a
       /\ (forall i j, Invoke Level_playerEnemyCollision i j ∈ log w' ->
             Invoke Level_playerEnemyCollision i j ∈ log w).
Proof.
  intros Hr Hp Ha Hinv Hb He.
  destruct (reachable_inv w Hr) as (Hg & _ & _ & _).
  assert (H1 : pass (get "player" w) (get "enemies" w)
                 (Some Level_playerEnemyCollision) (Some Level_playerEnemyProcess) w
               = record (Collide (get "player" w) (get "enemies" w)
                   (Some Level_playerEnemyCollision)
                   (Some Level_playerEnemyProcess)) w).
  { rewrite Hp. by apply pass_player_invincible with a. }
  split; [done|].
  eexists. split; [by apply handleCollisions_ok|].
  rewrite H1. set (w1 := record _ w).
  destruct (pass_frame (get "bullets" w) (get "mapLayer" w)
              (Some Level_bulletWallCollision) None w1)
    as (_ & G2 & L2 & _ & A2 & I2).
  set (w2 := pass (get "bullets" w) (get "mapLayer" w) _ _ w1) in *.
  destruct (pass_frame (get "bullets" w) (get "enemies" w)
              (Some Level_bulletEnemyCollision) None w2)
    as (_ & _ & _ & _ & A3 & I3).
  set (w3 := pass (get "bullets" w) (get "enemies" w) _ _ w2) in *.
  simpl. split.
  - assert (M2 : forall o, members o w2 = members o w)
      by (intros o; apply members_same; [by rewrite G2|by rewrite L2]).
    rewrite A3, A2; simpl; rewrite ?M2; auto.
  - intros i j Hin.
    rewrite !elem_of_app, !list_elem_of_singleton in Hin.
    destruct Hin as [[[Hin|?]|?]|?]; try discriminate.
    apply I3 in Hin as [Hin|?]; [|discriminate].
    apply I2 in Hin as [Hin|?]; [|discriminate].
    subst w1. simpl in Hin.
    rewrite elem_of_app, list_elem_of_singleton in Hin.
    by destruct Hin as [?|?].
Qed.

End LevelSweepClaims.

Ltac level2_is_reachable :=
  unfold level2, level1, level0;
  do 2 apply Level.reachable_run; apply Level.reachable_new.

Ltac not_member :=
  let Hin := fresh in
  intros Hin; vm_compute in Hin;
  repeat (apply elem_of_cons in Hin as [Hin|Hin]; [discriminate Hin|]);
  by apply elem_of_nil in Hin.

Lemma handleCollisions_pass_order_witness :
  exists w',
    Level.handleCollisions (H := Sprites0) level2 = Ok tt w'
    /\ passes (log w')
       = passes (log level2)
         ++ [ Collide (get "player" level2) (get "enemies" level2)
                (Some Level_playerEnemyCollision) (Some Level_playerEnemyProcess);
              Collide (get "bullets" level2) (get "mapLayer" level2)
                (Some Level_bulletWallCollision) None;
              Collide (get "bullets" level2) (get "enemies" level2)
                (Some Level_bulletEnemyCollision) None;
              Collide (get "player" level2) (get "mapLayer" level2) None None;
              Collide (get "enemies" level2) (get "mapLayer" level2) None None ]
         ++ [ Collide VUndefined (get "mapLayer" level2) None None ]
    /\ members VUndefined w' = [].
Proof.
  apply (handleCollisions_pass_order (H := Sprites0) level2).
  level2_is_reachable.
Defined.

Lemma handleCollisions_giblets_undefined_witness :
  this level2 !! "giblets" = None
  /\ exists w',
       Level.handleCollisions (H := Sprites0) level2 = Ok tt w'
       /\ last (log w') = Some (Collide VUndefined (get "mapLayer" level2) None None)
       /\ passes (log w') !! (length (passes (log level2)) + 5)%nat
          = Some (Collide VUndefined (get "mapLayer" level2) None None).
Proof.
  apply (handleCollisions_giblets_undefined (H := Sprites0) level2).
  level2_is_reachable.
Defined.

Lemma invincible_player_unharmed_witness :
  collide (Level.on_collide (H := Sprites0)) Level.on_process
    (get "player" level2_grace) (get "enemies" level2_grace)
    (Some Level_playerEnemyCollision) (Some Level_playerEnemyProcess) level2_grace
  = record (Collide (get "player" level2_grace) (get "enemies" level2_grace)
              (Some Level_playerEnemyCollision) (Some Level_playerEnemyProcess))
      level2_grace
  /\ exists w',
       Level.handleCollisions (H := Sprites0) level2_grace = Ok tt w'
       /\ actors w' !! 0%nat = Some (invincible_on (set_x 150 player0))
       /\ (forall i j, Invoke Level_playerEnemyCollision i j ∈ log w' ->
             Invoke Level_playerEnemyCollision i j ∈ log level2_grace).
Proof.
  apply (invincible_player_unharmed (H := Sprites0) level2_grace 0
           (invincible_on (set_x 150 player0))).
  - apply Level.reachable_elsewhere with level2; [level2_is_reachable|].
    vm_compute. reflexivity.
  - vm_compute. reflexivity.
  - vm_compute. reflexivity.
  - vm_compute. reflexivity.
  - not_member.
  - not_member.
Defined.

(** ** Reading the world back *)

Lemma get_put_eq k v w : get k (put k v w) = v.
Proof. unfold get, put. simpl. by rewrite lookup_insert_eq. Qed.

Lemma get_put_ne k k' v w : k ≠ k' -> get k (put k' v w) = get k w.
Proof. intros Hk. unfold get, put. simpl. by rewrite lookup_insert_ne. Qed.

Lemma this_update_audio i f w : this (update_audio i f w) = this w.
Proof. this_unchanged. Qed.

Lemma log_update_audio i f w : log (update_audio i f w) = log w.
Proof. this_unchanged. Qed.

Lemma this_update_text i f w : this (update_text i f w) = this w.
Proof. this_unchanged. Qed.

Lemma log_update_text i f w : log (update_text i f w) = log w.
Proof. this_unchanged. Qed.

Lemma this_update_timer i f w : this (update_timer i f w) = this w.
Proof. this_unchanged. Qed.

Lemma log_update_timer i f w : log (update_timer i f w) = log w.
Proof. this_unchanged. Qed.

Lemma this_update_tween i f w : this (update_tween i f w) = this w.
Proof. this_unchanged. Qed.

Lemma log_update_tween i f w : log (update_tween i f w) = log w.
Proof. this_unchanged. Qed.

Lemma this_update_dialogue i f w : this (update_dialogue i f w) = this w.
Proof. this_unchanged. Qed.

Lemma log_update_dialogue i f w : log (update_dialogue i f w) = log w.
Proof. this_unchanged. Qed.

(** Reading the level's properties back while a method is evaluated. *)
Ltac read_this :=
  repeat first
    [ rewrite this_update_audio | rewrite this_update_actor
    | rewrite this_update_text | rewrite this_update_timer
    | rewrite this_update_tween | rewrite this_update_dialogue
    | rewrite this_foldl_update_actor
    | rewrite lookup_insert_eq | rewrite lookup_insert_ne by done
    | progress simpl ].

Ltac read_log :=
  repeat first
    [ rewrite log_update_audio | rewrite log_update_actor
    | rewrite log_update_text | rewrite log_update_timer
    | rewrite log_update_tween | rewrite log_update_dialogue
    | progress simpl ].


(** ** Setting up and populating the level *)

Lemma groups_foldl_update_actor (f : Actor -> Actor) l w :
  groups (foldl (fun w i => update_actor i f w) w l) = groups w.
Proof.
  revert w. induction l as [|i l IH]; intros w; simpl; [done|].
  by rewrite IH, groups_update_actor.
Qed.

Lemma log_foldl_update_actor (f : Actor -> Actor) l w :
  log (foldl (fun w i => update_actor i f w) w l) = log w.
Proof.
  revert w. induction l as [|i l IH]; intros w; simpl; [done|].
  by rewrite IH, log_update_actor.
Qed.

Lemma prop_bullets_ok v w :
  v ≠ VUndefined -> v ≠ VNull -> exists b, prop_bullets v w = Ok b w.
Proof.
  intros Hu Hn. unfold prop_bullets, not_nullish. run_monad.
  destruct v as [| | | | |[]]; try done; eauto.
Qed.

Section LevelSetup.
Context `{Sprites}.

(** C5, as the code has it.  [createObjects] reports no configuration
    error: called on a level in use with a player that is an object, it
    returns the level's enemy group, to which it has added one sprite for
    each spawn object of the enemy marker; when there is no such spawn data
    it adds none, and returns the group all the same. *)
Theorem createObjects_returns_enemies (w : World) (player : Value) :
  Level.reachable w ->
  player ≠ VUndefined ->
  player ≠ VNull ->
  exists w' g,
    Level.createObjects player w = Ok (VRef (RGroup g)) w'
    /\ get "enemies" w = VRef (RGroup g)
    /\ get "enemies" w' = VRef (RGroup g)
    /\ groups w' !! g
       = (fun ms => ms ++ seq (length (actors w)) (length (spawn_data w)))
           <$> groups w !! g
    /\ (spawn_data w = [] -> groups w' = groups w).
Proof.
  intros Hr Hu Hn.
  destruct (reachable_inv w Hr) as (Hg & [name Hm] & _ & _).
  destruct (reachable_enemies w Hr) as [g He].
  destruct (prop_bullets_ok player (put "player" player w) Hu Hn) as [b Hb].
  unfold Level.createObjects, map_createFromObjects, group_setAll,
    the_map, the_group.
  run_monad. rewrite Hb.
  unfold get, put in *; simpl in *.
  repeat first [rewrite Hg | rewrite Hm | rewrite He | progress read_this].
  eexists _, g. split; [reflexivity|]. split; [done|].
  repeat (rewrite groups_foldl_update_actor; simpl).
  repeat split.
  - read_this. by rewrite He.
  - rewrite list_lookup_alter_eq, length_fmap. done.
  - unfold spawn_data. intros ->. simpl. apply list_alter_id.
    intros ms. apply app_nil_r.
Qed.

(** C10.  [create] hands [setCollisionByExclusion] the property [layerBg]
    of the level; no operation of the level assigns it (the layer that was
    created is stored in [mapLayer]), so the layer argument of the call is
    always [undefined]. *)
Theorem create_collision_layer_undefined (w : World) :
  Level.reachable w ->
  this w !! "layerBg" = None
  /\ exists w',
       Level.create w = Ok tt w'
       /\ get "mapLayer" w' = VRef (RLayer "bg")
       /\ this w' !! "layerBg" = None
       /\ log w'
          = log w
            ++ [ AddTilesetImage "tiles" "tiles";
                 CreateLayer "bg";
                 ResizeWorld (VRef (RLayer "bg"));
                 SetCollisionByExclusion [1; 10] true VUndefined true;
                 SendToBack (VRef (RLayer "bg"));
                 AddAudio "intromusic";
                 AddAudio "leveldrums" ].
Proof.
  intros Hr. destruct (reachable_inv w Hr) as (Hg & [name Hm] & _ & Hbg).
  split; [done|].
  unfold Level.create, map_addTilesetImage, map_createLayer, layer_resizeWorld,
    map_setCollisionByExclusion, world_sendToBack, add_audio, sound_set_loop,
    sound_set_volume.
  unfold the_map, the_game, the_layer, not_nullish.
  run_monad.
  unfold get, put in *; simpl in *.
  repeat first [rewrite Hg | rewrite Hm | rewrite Hbg | progress read_this].
  eexists. split; [reflexivity|].
  repeat split.
  - read_this. done.
  - read_this. done.
  - read_log. by rewrite <- !app_assoc.
Qed.

End LevelSetup.

Lemma create_collision_layer_undefined_witness :
  this level0 !! "layerBg" = None
  /\ exists w',
       Level.create level0 = Ok tt w'
       /\ get "mapLayer" w' = VRef (RLayer "bg")
       /\ this w' !! "layerBg" = None
       /\ log w'
          = log level0
            ++ [ AddTilesetImage "tiles" "tiles";
                 CreateLayer "bg";
                 ResizeWorld (VRef (RLayer "bg"));
                 SetCollisionByExclusion [1; 10] true VUndefined true;
                 SendToBack (VRef (RLayer "bg"));
                 AddAudio "intromusic";
                 AddAudio "leveldrums" ].
Proof.
  apply (create_collision_layer_undefined (H := Sprites0) level0).
  unfold level0. apply Level.reachable_new.
Defined.

(** C5, as stated, fails: the map of [bare1] has no spawn data for the
    enemy marker, and [createObjects] does not fail; it returns the enemy
    group. *)
Lemma createObjects_without_spawn_data_returns :
  objects bare1 !! "spawnpoints" = None
  /\ spawn_data bare1 = []
  /\ returned (Level.createObjects (H := Sprites0) (VRef (RActor 0)) bare1)
     = Some (VRef (RGroup 1)).
Proof. vm_compute. done. Qed.

Lemma createObjects_returns_enemies_witness :
  exists w' g,
    Level.createObjects (H := Sprites0) (VRef (RActor 0)) bare1 = Ok (VRef (RGroup g)) w'
    /\ get "enemies" bare1 = VRef (RGroup g)
    /\ get "enemies" w' = VRef (RGroup g)
    /\ groups w' !! g
       = (fun ms => ms ++ seq (length (actors bare1)) (length (spawn_data bare1)))
           <$> groups bare1 !! g
    /\ (spawn_data bare1 = [] -> groups w' = groups bare1).
Proof.
  apply (createObjects_returns_enemies (H := Sprites0) bare1 (VRef (RActor 0))).
  - unfold bare1. apply Level.reachable_run, Level.reachable_new.
  - discriminate.
  - discriminate.
Defined.


(** ** The frame update of the main state *)

Section MainUpdate.

Context `{Sprites}.

(** C8.  While the running flag is false (or was never set), [update]
    returns at once: no overlap pass is made and the world is as it was. *)
Theorem update_not_running (w : World) :
  truthy (get "_running" w) = false ->
  Main.update w = Ok tt w.
Proof.
  intros Hr. unfold Main.update, mbind, M_bind, read. cbv beta iota.
  by rewrite Hr.
Qed.

End MainUpdate.

Lemma update_not_running_witness :
  get "_running" main_stopped = VBool false
  /\ Main.update (H := Sprites0) main_stopped = Ok tt main_stopped.
Proof.
  split; [vm_compute; reflexivity|].
  apply (update_not_running (H := Sprites0) main_stopped).
  vm_compute. reflexivity.
Defined.


(** ** Bullet decay in the main state *)

Section MainDecay.

Context `{Sprites}.

Lemma tween_scale_then_destroy_spec i sx sy d w :
  let b := mkBinding Main_destroyBullet (VRef (RActor i)) false in
  let w' := Main.tween_scale_then_destroy i sx sy d w in
  actors w' = actors w
  /\ tweens w' = tweens w ++ [mkTween (VRef (RActor i)) (TweenScaleTo sx sy) 0 d true [b]]
  /\ log w' = log w ++ [AddTween (length (tweens w)); SignalAdd (VRef (RTween (length (tweens w)))) b].
Proof.
  simpl. unfold Main.tween_scale_then_destroy, update_tween. simpl.
  rewrite alter_app_r_alt by done. rewrite Nat.sub_diag. simpl.
  repeat split. by rewrite <- app_assoc.
Qed.

Lemma collidable_enabled a b :
  collidable a b = true -> body_enable a = true /\ body_enable b = true.
Proof.
  unfold collidable. intros Hc.
  repeat (apply andb_prop in Hc as [Hc ?]). done.
Qed.

Lemma tweens_of_snoc_other i w t :
  tw_target t ≠ VRef (RActor i) ->
  filter (fun t => tw_target t = VRef (RActor i)) (tweens w ++ [t]) = tweens_of i w.
Proof.
  intros Ht. unfold tweens_of. rewrite filter_app.
  rewrite filter_cons_False, filter_nil by done. apply app_nil_r.
Qed.

Lemma decay_untouched w b a i w' :
  i ≠ b ->
  untouched w b a w' ->
  untouched w b a
    (Main.tween_scale_then_destroy i 0 0 200
       (update_actor i (set_body_enable false)
          (update_actor i (set_frameName "bang") w'))).
Proof.
  intros Hi (Ha & Hl & Ht).
  destruct (tween_scale_then_destroy_spec i 0 0 200
              (update_actor i (set_body_enable false)
                 (update_actor i (set_frameName "bang") w')))
    as (Ea & Et & El).
  unfold untouched. rewrite Ea, El. unfold tweens_of at 1. rewrite Et.
  repeat split.
  - by rewrite !actors_update_actor_ne by done.
  - intros c i' j' Hin Hb. rewrite !log_update_actor in Hin.
    apply elem_of_app in Hin as [Hin|Hin]; [by apply Hl|].
    repeat (apply elem_of_cons in Hin as [Hin|Hin]; [discriminate|]).
    by apply elem_of_nil in Hin.
  - rewrite tweens_of_snoc_other by (simpl; congruence).
    unfold tweens_of, update_actor in *. by repeat case_match.
Qed.

Lemma main_pass_untouched w b a o1 o2 cb proc w1 :
  body_enable a = false ->
  untouched w b a w1 ->
  untouched w b a (collide Main.on_collide Main.on_process o1 o2 cb proc w1).
Proof.
  intros Hdis H1. unfold collide.
  apply (collide_all_ind Main.on_collide Main.on_process (untouched w b a)).
  - intros c i j ai aj w' _ _ _ Hai Haj Hcol _ (Ha & Hl & Ht).
    apply collidable_enabled in Hcol as [Hei Hej].
    assert (Hi : i ≠ b) by (intros ->; congruence).
    assert (Hj : j ≠ b) by (intros ->; congruence).
    assert (Hrec : untouched w b a (record (Invoke c i j) w')).
    { repeat split; try done. intros c' i' j' Hin Hb. simpl in Hin.
      apply elem_of_app in Hin as [Hin|Hin]; [by apply Hl|].
      apply list_elem_of_singleton in Hin. injection Hin as -> -> ->.
      by destruct Hb. }
    destruct c; simpl; try done.
    + by apply decay_untouched.
    + unfold Main._bulletEnemyCollision.
      apply decay_untouched; try done.
      destruct Hrec as (Ha' & Hl' & Ht').
      destruct (actors (record (Invoke Main_bulletEnemyCollision i j) w') !! i);
        [|done].
      repeat split.
      * by rewrite actors_update_actor_ne.
      * by rewrite log_update_actor.
      * unfold tweens_of, update_actor in *. by repeat case_match.
  - destruct H1 as (Ha & Hl & Ht). repeat split; try done.
    intros c i j Hin Hb. simpl in Hin.
    apply elem_of_app in Hin as [Hin|Hin]; [by apply Hl|].
    apply list_elem_of_singleton in Hin. discriminate.
Qed.

Lemma update_actor_lookup_is_Some i f w k :
  is_Some (actors w !! k) -> is_Some (actors (update_actor i f w) !! k).
Proof.
  intros [a Ha]. destruct (decide (k = i)) as [->|Hk].
  - rewrite (actors_update_actor_eq i f w a Ha). eauto.
  - rewrite actors_update_actor_ne by done. eauto.
Qed.

Lemma decay_disables i w :
  is_Some (actors w !! i) ->
  body_enable <$>
    actors (Main.tween_scale_then_destroy i 0 0 200
              (update_actor i (set_body_enable false)
                 (update_actor i (set_frameName "bang") w))) !! i
  = Some false.
Proof.
  intros Hi.
  destruct (tween_scale_then_destroy_spec i 0 0 200
              (update_actor i (set_body_enable false)
                 (update_actor i (set_frameName "bang") w)))
    as (-> & _ & _).
  destruct (update_actor_lookup_is_Some i (set_frameName "bang") w i Hi) as [a Ha].
  by rewrite (actors_update_actor_eq i _ _ a Ha).
Qed.

Lemma preserves_bind {A B : Type} P (m : M A) (f : A -> M B) :
  preserves P m -> (forall a, preserves P (f a)) -> preserves P (m ≫= f).
Proof.
  intros Hm Hf w Hw. specialize (Hm w Hw). unfold exec, mbind, M_bind in *.
  destruct (m w) as [x w'|e w']; simpl in *; [|done].
  by apply Hf.
Qed.

Lemma preserves_ret {A : Type} P (x : A) : preserves P (mret x).
Proof. by intros w. Qed.

Lemma preserves_read {A : Type} P (f : World -> A) : preserves P (read f).
Proof. by intros w. Qed.

Lemma preserves_throw {A : Type} P e : preserves P (throw (A := A) e).
Proof. by intros w. Qed.

Lemma preserves_lift P (f : World -> World) :
  (forall w, P w -> P (f w)) -> preserves P (lift f).
Proof. intros Hf w Hw. by apply Hf. Qed.

Lemma update_preserves_untouched w b a :
  body_enable a = false -> preserves (untouched w b a) Main.update.
Proof.
  intros Hdis.
  assert (Hac : forall o1 o2 cb, preserves (untouched w b a) (Main.arcade_collide o1 o2 cb)).
  { intros o1 o2 cb. unfold Main.arcade_collide.
    apply preserves_bind; [apply preserves_read|intros v1].
    apply preserves_bind; [apply preserves_read|intros v2].
    apply preserves_lift. intros w1 H1. by apply main_pass_untouched. }
  assert (Htx : forall c v, preserves (untouched w b a) (text_set_text c v)).
  { intros c v. unfold text_set_text.
    apply preserves_bind.
    - unfold not_nullish. destruct c; (apply preserves_throw || apply preserves_ret).
    - intros _. destruct c as [| | | | |[]]; try apply preserves_ret.
      apply preserves_lift. intros w1 (Ha & Hl & Ht).
      unfold untouched, tweens_of, update_text in *. by repeat case_match. }
  unfold Main.update.
  apply preserves_bind; [apply preserves_read|]. intros r.
  destruct (negb (truthy r)); [apply preserves_ret|].
  do 4 (apply preserves_bind; [apply Hac|intros _]).
  apply preserves_bind; [apply preserves_read|intros c].
  apply preserves_bind; [apply preserves_read|intros f].
  apply Htx.
Qed.

(** C6, as the code has it.  Either handler leaves the bullet with its body
    disabled, and that is what guards the decay: a frame update calls no
    handler on a sprite whose body is disabled, so a disabled bullet is left
    as it is, deals no further damage and gets no further decay animation.
    The handlers themselves are not guarded. *)
Theorem disabled_bullet_untouched_by_update (w : World) (b : nat) (a : Actor) :
  actors w !! b = Some a ->
  (forall wall,
      body_enable <$> actors (Main._bulletWallCollision b wall w) !! b = Some false)
  /\ (forall enemy,
        body_enable <$> actors (Main._bulletEnemyCollision b enemy w) !! b = Some false)
  /\ (body_enable a = false -> untouched w b a (exec Main.update w)).
Proof.
  intros Ha. split; [|split].
  - intros wall. unfold Main._bulletWallCollision. apply decay_disables. eauto.
  - intros enemy. unfold Main._bulletEnemyCollision. apply decay_disables.
    rewrite Ha. apply update_actor_lookup_is_Some. eauto.
  - intros Hdis. by apply update_preserves_untouched.
Qed.

End MainDecay.

(** C6, as stated, fails: the first bullet of [main_hit] is disabled and
    decaying, and calling either handler on it again starts a second decay
    tween; the enemy handler also calls [onHit] again, which here costs the
    enemy another point of health. *)
Lemma handlers_not_idempotent :
  body_enable <$> actors main_hit !! 1%nat = Some false
  /\ length (tweens main_hit) = 1%nat
  /\ length (tweens (Main._bulletWallCollision 1 3 main_hit)) = 2%nat
  /\ length (tweens (Main._bulletEnemyCollision (H := Sprites0) 1 4 main_hit)) = 2%nat
  /\ health <$> actors main_hit !! 4%nat = Some 2
  /\ health <$> actors (Main._bulletEnemyCollision (H := Sprites0) 1 4 main_hit) !! 4%nat
     = Some 1.
Proof. vm_compute. done. Qed.

Lemma disabled_bullet_untouched_by_update_witness :
  (forall wall,
      body_enable <$> actors (Main._bulletWallCollision 1 wall main_hit) !! 1%nat
      = Some false)
  /\ (forall enemy,
        body_enable <$>
          actors (Main._bulletEnemyCollision (H := Sprites0) 1 enemy main_hit) !! 1%nat
        = Some false)
  /\ untouched main_hit 1 bullet_spent (exec (Main.update (H := Sprites0)) main_hit).
Proof.
  destruct (disabled_bullet_untouched_by_update (H := Sprites0) main_hit 1 bullet_spent)
    as (H1 & H2 & H3).
  - vm_compute. reflexivity.
  - split; [exact H1|]. split; [exact H2|]. apply H3. reflexivity.
Defined.


(** ** The mission intro *)

Section Mission.

Context `{Sprites}.

(** What [_startMission] does on a level that was created and populated. *)
Lemma startMission_ok w p a i1 i2 :
  get "game" w = VRef RGame ->
  get "player" w = VRef (RActor p) ->
  actors w !! p = Some a ->
  get "introMusic" w = VRef (RAudio i1) ->
  get "bgMusic" w = VRef (RAudio i2) ->
  exists w',
    Level._startMission w = Ok tt w'
    /\ log w' = log w ++ mission_start_calls w
    /\ actors w' !! p = Some (Player_makeHP (set_disableControls false a))
    /\ timers w'
       = timers w
         ++ [mkTimer false 600 5 (Some flash_event) true]
    /\ texts w'
       = texts w
         ++ [mkText (inject_Z (camera_width w) / 2) (inject_Z (camera_height w) / 2)
               (VStr "MISSION START") "32px VT323" "#FFFFFF" (1 # 2) true true]
    /\ get "_flash" w' = VRef (RText (length (texts w)))
    /\ get "_flashTimer" w' = VRef (RTimer (length (timers w)))
    /\ dialogues w' = dialogues w
    /\ (forall k, k ≠ "_flash" -> k ≠ "_flashTimer" -> get k w' = get k w).
Proof.
  intros Hg Hp Ha H1 H2.
  unfold Level._startMission, Level._showMissionStartText,
    sprite_set_disableControls, sound_stop, sound_play, add_text,
    text_anchor_set, text_set_fixedToCamera, time_create, timer_repeat,
    timer_start.
  unfold the_actor, the_audio, the_game, the_text, the_timer, not_nullish.
  run_monad.
  unfold get, put in *; simpl in *.
  repeat first [rewrite Hg | rewrite Hp | rewrite H1 | rewrite H2 | progress read_this].
  eexists. split; [reflexivity|].
  simpl. rewrite ?length_alter.
  repeat (rewrite alter_app_r_alt by (rewrite ?length_alter; done);
          rewrite ?length_alter, Nat.sub_diag; simpl).
  repeat split.
  - unfold mission_start_calls, get. rewrite Hp, H1, H2. by rewrite <- !app_assoc.
  - by rewrite !list_lookup_alter_eq, Ha.
  - by rewrite lookup_insert_ne, lookup_insert_eq.
  - by rewrite lookup_insert_eq.
  - intros k K1 K2. by rewrite !lookup_insert_ne.
Qed.

(** What [_beginIntro] does on a level that was populated. *)
Lemma beginIntro_ok w p :
  get "game" w = VRef RGame ->
  get "player" w = VRef (RActor p) ->
  exists w',
    Level._beginIntro w = Ok tt w'
    /\ dialogues w'
       = dialogues w
         ++ [mkDialogue (Some (JS_toString (get "name" w) +:+ "_intro")) [startMission_once]]
    /\ get "dialogue" w' = VRef (RDialogue (length (dialogues w)))
    /\ (forall k, k ≠ "dialogue" -> get k w' = get k w)
    /\ actors w' = alter (set_animation "stand") p (actors w)
    /\ texts w' = texts w
    /\ timers w' = timers w
    /\ log w'
       = log w
         ++ [ AnimationsPlay (VRef (RActor p)) "stand";
              NewDialogueManager (length (dialogues w));
              DialogueStart (VRef (RDialogue (length (dialogues w))))
                (JS_toString (get "name" w) +:+ "_intro");
              SignalAdd (VRef (RDialogue (length (dialogues w)))) startMission_once ].
Proof.
  intros Hg Hp.
  unfold Level._beginIntro, animations_play, new_DialogueManager,
    dialogue_start, dialogue_onFinished_addOnce, the_actor, the_dialogue.
  run_monad.
  unfold get, put in *; simpl in *.
  repeat first [rewrite Hg | rewrite Hp | progress read_this].
  eexists. split; [reflexivity|].
  simpl.
  repeat (rewrite alter_app_r_alt by (rewrite ?length_alter; done);
          rewrite ?length_alter, Nat.sub_diag; simpl).
  repeat split.
  - by rewrite lookup_insert_eq.
  - intros k K. by rewrite lookup_insert_ne.
  - by rewrite <- !app_assoc.
Qed.

Lemma detach_only w d key b :
  dialogues w !! d = Some (mkDialogue key [b]) ->
  update_dialogue d
    (fun dl => mkDialogue (d_started dl) (without b (d_onFinished dl))) w
  = set_dialogues (<[d := mkDialogue key []]> (dialogues w)) w.
Proof.
  intros Hd. unfold update_dialogue. f_equal.
  apply list_eq. intros i. destruct (decide (i = d)) as [->|Hi].
  - rewrite list_lookup_alter_eq, Hd, list_lookup_insert_eq
      by (by eapply lookup_lt_Some).
    simpl. unfold without. by rewrite filter_cons_False, filter_nil by (intros ?; done).
  - by rewrite list_lookup_alter_ne, list_lookup_insert_ne.
Qed.

(** A finished dialogue with a single [addOnce] listener detaches the
    binding and calls the listener. *)
Lemma dialogue_finished_once w d key l c :
  dialogues w !! d = Some (mkDialogue key [mkBinding l c true]) ->
  deliver Level.run_listener (DialogueFinished d) w
  = (Level.run_listener l c ≫= fun _ => mret tt)
      (set_dialogues (<[d := mkDialogue key []]> (dialogues w)) w).
Proof.
  intros Hd. simpl. unfold dialogue_finished. run_monad. rewrite Hd. simpl.
  unfold mbind, M_bind, lift. cbv beta iota.
  by rewrite (detach_only w d key _ Hd).
Qed.

(** A finished dialogue without listeners changes nothing. *)
Lemma dialogue_finished_unbound w d key :
  dialogues w !! d = Some (mkDialogue key []) ->
  deliver Level.run_listener (DialogueFinished d) w = Ok tt w.
Proof.
  intros Hd. simpl. unfold dialogue_finished. run_monad. by rewrite Hd.
Qed.

Lemma deliver_all_cons e es w :
  deliver_all (e :: es) w
  = match deliver Level.run_listener e w with
    | Ok _ w' => deliver_all es w'
    | Throw x w' => Throw x w'
    end.
Proof. reflexivity. Qed.

Lemma deliver_all_unbound w d key n :
  dialogues w !! d = Some (mkDialogue key []) ->
  deliver_all (replicate n (DialogueFinished d)) w = Ok tt w.
Proof.
  intros Hd. induction n as [|n IH]; [done|].
  simpl replicate. rewrite deliver_all_cons.
  by rewrite (dialogue_finished_unbound w d key Hd).
Qed.

(** X1.  Once the intro dialogue has started, any number N >= 1 of
    dialogue-finished signals makes the level start the mission exactly
    once: the first signal detaches the listener and runs [_startMission],
    every further signal finds no listener and is a no-op; none of them
    throws. *)
Theorem dialogue_finished_starts_mission_once (w : World) (p : nat) (a : Actor)
    (i1 i2 N : nat) :
  Level.reachable w ->
  get "player" w = VRef (RActor p) ->
  actors w !! p = Some a ->
  get "introMusic" w = VRef (RAudio i1) ->
  get "bgMusic" w = VRef (RAudio i2) ->
  (1 <= N)%nat ->
  exists w1 w2,
    Level._beginIntro w = Ok tt w1
    /\ deliver_all (replicate N (DialogueFinished (length (dialogues w)))) w1 = Ok tt w2
    /\ log w2 = log w1 ++ mission_start_calls w1
    /\ (d_onFinished <$> dialogues w1 !! length (dialogues w)) = Some [startMission_once]
    /\ (d_onFinished <$> dialogues w2 !! length (dialogues w)) = Some [].
Proof.
  intros Hr Hp Ha H1 H2 HN.
  destruct (reachable_inv w Hr) as (Hg & _).
  destruct (beginIntro_ok w p Hg Hp) as (w1 & Hb & Hd & Hdl & Hk & Hac & Htx & Htm & Hlog).
  set (d := length (dialogues w)) in *.
  set (key := Some (JS_toString (get "name" w) +:+ "_intro")) in *.
  assert (Hd1 : dialogues w1 !! d = Some (mkDialogue key [startMission_once])).
  { rewrite Hd. by apply list_lookup_middle. }
  set (w1' := set_dialogues (<[d := mkDialogue key []]> (dialogues w1)) w1).
  destruct (startMission_ok w1' p (set_animation "stand" a) i1 i2)
    as (w2 & Hs & Hl2 & _ & _ & _ & _ & _ & Hd2 & _).
  { unfold w1'. change (get "game" w1 = VRef RGame). by rewrite Hk. }
  { unfold w1'. change (get "player" w1 = VRef (RActor p)). by rewrite Hk. }
  { unfold w1'. simpl. by rewrite Hac, list_lookup_alter_eq, Ha. }
  { unfold w1'. change (get "introMusic" w1 = VRef (RAudio i1)). by rewrite Hk. }
  { unfold w1'. change (get "bgMusic" w1 = VRef (RAudio i2)). by rewrite Hk. }
  assert (Hd2' : dialogues w2 !! d = Some (mkDialogue key [])).
  { rewrite Hd2. unfold w1'. simpl.
    apply list_lookup_insert_eq. by eapply lookup_lt_Some. }
  exists w1, w2. split; [done|]. split; [|split; [|split]].
  - destruct N as [|n]; [lia|].
    simpl replicate. rewrite deliver_all_cons.
    rewrite (dialogue_finished_once w1 d key _ _ Hd1). fold w1'.
    unfold mbind, M_bind. simpl Level.run_listener. rewrite Hs.
    by apply deliver_all_unbound with key.
  - exact Hl2.
  - by rewrite Hd1.
  - by rewrite Hd2'.
Qed.

End Mission.


(** ** The flashing text *)

Section Flash.

Context `{Sprites}.

Lemma iter_negb_even k : Nat.iter k negb true = Nat.even k.
Proof.
  induction k as [|k IH]; [done|].
  rewrite Nat.even_succ, <- Nat.negb_even, <- IH. done.
Qed.

(** One tick of the flash timer while calls remain: the count goes down,
    the text toggles, and nothing else changes. *)
Lemma tick_flash w t tx n :
  timers w !! t = Some (mkTimer false 600 (S n) (Some flash_event) true) ->
  get "_flash" w = VRef (RText tx) ->
  exists w',
    deliver Level.run_listener (TimerTick t) w = Ok tt w'
    /\ timers w' !! t = Some (mkTimer false 600 n (Some flash_event) (negb (Nat.eqb n 0)))
    /\ get "_flash" w' = VRef (RText tx)
    /\ log w' = log w
    /\ actors w' = actors w
    /\ audios w' = audios w
    /\ t_visible <$> texts w' !! tx = negb <$> (t_visible <$> texts w !! tx).
Proof.
  intros Ht Hf. simpl. unfold timer_tick. run_monad. rewrite Ht. simpl.
  unfold Level.flashToggle, text_toggle_visible, not_nullish. run_monad.
  unfold get in *. simpl. rewrite Hf. simpl.
  eexists. split; [reflexivity|]. simpl.
  repeat split.
  - by rewrite list_lookup_alter_eq, Ht.
  - done.
  - rewrite list_lookup_alter_eq. by destruct (texts w !! tx).
Qed.

Lemma ticks_flash t tx k :
  forall n w,
    timers w !! t
    = Some (mkTimer false 600 (k + n) (Some flash_event) (negb (Nat.eqb (k + n) 0))) ->
    get "_flash" w = VRef (RText tx) ->
    exists w',
      deliver_all (replicate k (TimerTick t)) w = Ok tt w'
      /\ timers w' !! t = Some (mkTimer false 600 n (Some flash_event) (negb (Nat.eqb n 0)))
      /\ log w' = log w
      /\ actors w' = actors w
      /\ audios w' = audios w
      /\ t_visible <$> texts w' !! tx = Nat.iter k negb <$> (t_visible <$> texts w !! tx).
Proof.
  induction k as [|k IH]; intros n w Ht Hf.
  - exists w. simpl in *. repeat split; try done.
    destruct (texts w !! tx); reflexivity.
  - simpl replicate. rewrite deliver_all_cons.
    destruct (tick_flash w t tx (k + n) Ht Hf) as (w1 & -> & Ht1 & Hf1 & Hl & Ha & Hu & Hv).
    destruct (IH n w1 Ht1 Hf1) as (w' & Hd & Ht' & Hl' & Ha' & Hu' & Hv').
    exists w'. repeat split; try congruence.
    rewrite Hv', Hv. destruct (texts w !! tx) as [t0|]; [|reflexivity].
    change (Some (Nat.iter k negb (negb (t_visible t0)))
            = Some (Nat.iter (S k) negb (t_visible t0))).
    by rewrite Nat.iter_succ_r.
Qed.

(** X2.  [_startMission] does not wait for the flashing text: it re-enables
    the player's controls, makes the health display, stops the intro music
    and starts the level music at once, and only then shows the text and
    starts the timer of 5 toggles, 600 ms apart.  The ticks of that timer
    toggle the text and count down, and change nothing else; after the fifth
    the timer has stopped. *)
Theorem mission_starts_before_flash (w : World) (p : nat) (a : Actor) (i1 i2 : nat) :
  Level.reachable w ->
  get "player" w = VRef (RActor p) ->
  actors w !! p = Some a ->
  get "introMusic" w = VRef (RAudio i1) ->
  get "bgMusic" w = VRef (RAudio i2) ->
  exists w',
    Level._startMission w = Ok tt w'
    /\ log w' = log w ++ mission_start_calls w
    /\ actors w' !! p = Some (Player_makeHP (set_disableControls false a))
    /\ timers w' !! length (timers w) = Some (mkTimer false 600 5 (Some flash_event) true)
    /\ forall k, (k <= 5)%nat ->
         exists wk,
           deliver_all (replicate k (TimerTick (length (timers w)))) w' = Ok tt wk
           /\ log wk = log w'
           /\ actors wk = actors w'
           /\ audios wk = audios w'
           /\ timers wk !! length (timers w)
              = Some (mkTimer false 600 (5 - k) (Some flash_event)
                        (negb (Nat.eqb (5 - k) 0)))
           /\ t_visible <$> texts wk !! length (texts w) = Some (Nat.even k).
Proof.
  intros Hr Hp Ha H1 H2.
  destruct (reachable_inv w Hr) as (Hg & _).
  destruct (startMission_ok w p a i1 i2 Hg Hp Ha H1 H2)
    as (w' & Hs & Hl & Hac & Htm & Htx & Hf & _).
  assert (Ht : timers w' !! length (timers w)
               = Some (mkTimer false 600 5 (Some flash_event) true)).
  { rewrite Htm. by apply list_lookup_middle. }
  exists w'. repeat split; try done.
  intros k Hk.
  destruct (ticks_flash (length (timers w)) (length (texts w)) k (5 - k) w')
    as (wk & Hd & Ht' & Hl' & Ha' & Hu' & Hv'); [|done|].
  { by replace (k + (5 - k))%nat with 5%nat by lia. }
  exists wk. repeat split; try done.
  rewrite Hv', Htx, list_lookup_middle by done. simpl.
  by rewrite iter_negb_even.
Qed.

End Flash.

Tactic Notation "level_is_reachable" integer(n) :=
  cbv delta [level5 level4 level3 level2 level1 level0];
  do n apply Level.reachable_run; apply Level.reachable_new.

Lemma dialogue_finished_starts_mission_once_witness :
  exists w1 w2,
    Level._beginIntro level3 = Ok tt w1
    /\ deliver_all (H := Sprites0)
         (replicate 3 (DialogueFinished (length (dialogues level3)))) w1
       = Ok tt w2
    /\ log w2 = log w1 ++ mission_start_calls w1
    /\ (d_onFinished <$> dialogues w1 !! length (dialogues level3))
       = Some [startMission_once]
    /\ (d_onFinished <$> dialogues w2 !! length (dialogues level3)) = Some [].
Proof.
  apply (dialogue_finished_starts_mission_once (H := Sprites0) level3 0
           player_walking 0 1 3).
  - level_is_reachable 3.
  - vm_compute. reflexivity.
  - vm_compute. reflexivity.
  - vm_compute. reflexivity.
  - vm_compute. reflexivity.
  - lia.
Defined.

(** In [level5] the dialogue has just finished and no tick of the flash
    timer has been delivered, so all five toggles are still to come; the
    player's controls are enabled again, the intro music has stopped, the
    level music plays, and the health display has been made. *)
Lemma mission_started_before_any_toggle :
  timers level5 !! 0%nat = Some (mkTimer false 600 5 (Some flash_event) true)
  /\ t_visible <$> texts level5 !! 0%nat = Some true
  /\ disableControls <$> actors level5 !! 0%nat = Some false
  /\ a_playing <$> audios level5 !! 0%nat = Some false
  /\ a_playing <$> audios level5 !! 1%nat = Some true
  /\ a_loop <$> audios level5 !! 1%nat = Some true
  /\ log level5 = log level4 ++ mission_start_calls level4.
Proof. vm_compute. done. Qed.

Lemma mission_starts_before_flash_witness :
  exists w',
    Level._startMission (H := Sprites0) level4 = Ok tt w'
    /\ log w' = log level4 ++ mission_start_calls level4
    /\ actors w' !! 0%nat
       = Some (Player_makeHP (Sprites := Sprites0) (set_disableControls false player_standing))
    /\ timers w' !! length (timers level4)
       = Some (mkTimer false 600 5 (Some flash_event) true)
    /\ forall k, (k <= 5)%nat ->
         exists wk,
           deliver_all (H := Sprites0)
             (replicate k (TimerTick (length (timers level4)))) w' = Ok tt wk
           /\ log wk = log w'
           /\ actors wk = actors w'
           /\ audios wk = audios w'
           /\ timers wk !! length (timers level4)
              = Some (mkTimer false 600 (5 - k) (Some flash_event)
                        (negb (Nat.eqb (5 - k) 0)))
           /\ t_visible <$> texts wk !! length (texts level4) = Some (Nat.even k).
Proof.
  apply (mission_starts_before_flash (H := Sprites0) level4 0 player_standing 0 1).
  - level_is_reachable 4.
  - vm_compute. reflexivity.
  - vm_compute. reflexivity.
  - vm_compute. reflexivity.
  - vm_compute. reflexivity.
Defined.

(** ** More of the flash timer *)

Section FlashMore.

Context `{Sprites}.

Lemma deliver_all_app es1 es2 w w1 :
  deliver_all es1 w = Ok tt w1 ->
  deliver_all (es1 ++ es2) w = deliver_all es2 w1.
Proof.
  revert w. induction es1 as [|e es1 IH]; intros w Hd.
  - injection Hd as <-. done.
  - simpl app. rewrite deliver_all_cons in *.
    destruct (deliver Level.run_listener e w) as [[] w'|]; [|done].
    by apply IH.
Qed.

(** A tick of a timer that has stopped changes nothing. *)
Lemma ticks_stopped t tm k w :
  timers w !! t = Some tm ->
  tm_running tm = false ->
  deliver_all (replicate k (TimerTick t)) w = Ok tt w.
Proof.
  intros Ht Hr. induction k as [|k IH]; [done|].
  simpl replicate. rewrite deliver_all_cons.
  simpl. unfold timer_tick. run_monad. rewrite Ht. simpl. rewrite Hr. done.
Qed.

(** X3.  A flash timer with [n] calls left toggles the text once per tick
    until none is left, and then has stopped: under [k] ticks the text is
    toggled [min k n] times and [n - k] calls remain; nothing but the text
    and the timer changes. *)
Theorem flash_toggles_min (w : World) (t tx n k : nat) :
  timers w !! t = Some (mkTimer false 600 n (Some flash_event) (negb (Nat.eqb n 0))) ->
  get "_flash" w = VRef (RText tx) ->
  exists w',
    deliver_all (replicate k (TimerTick t)) w = Ok tt w'
    /\ timers w' !! t
       = Some (mkTimer false 600 (n - k) (Some flash_event) (negb (Nat.eqb (n - k) 0)))
    /\ t_visible <$> texts w' !! tx
       = Nat.iter (k `min` n) negb <$> (t_visible <$> texts w !! tx)
    /\ log w' = log w
    /\ actors w' = actors w
    /\ audios w' = audios w.
Proof.
  intros Ht Hf. destruct (decide (k <= n)%nat) as [Hk|Hk].
  - destruct (ticks_flash t tx k (n - k) w) as (w' & Hd & Ht' & Hl & Ha & Hu & Hv);
      [by replace (k + (n - k))%nat with n by lia|done|].
    exists w'. repeat split; try done.
    by replace (k `min` n)%nat with k by lia.
  - destruct (ticks_flash t tx n 0 w) as (w' & Hd & Ht' & Hl & Ha & Hu & Hv);
      [by replace (n + 0)%nat with n by lia|done|].
    exists w'. replace k with (n + (k - n))%nat at 1 by lia.
    rewrite replicate_add, (deliver_all_app _ _ w w' Hd).
    rewrite (ticks_stopped t _ (k - n) w' Ht' eq_refl).
    repeat split; try done.
    + by replace (n - k)%nat with 0%nat by lia.
    + by replace (k `min` n)%nat with n by lia.
Qed.

End FlashMore.

Lemma flash_toggles_min_witness :
  exists w',
    deliver_all (H := Sprites0) (replicate 7 (TimerTick 0)) level5 = Ok tt w'
    /\ timers w' !! 0%nat
       = Some (mkTimer false 600 (5 - 7) (Some flash_event) (negb (Nat.eqb (5 - 7) 0)))
    /\ t_visible <$> texts w' !! 0%nat
       = Nat.iter (7 `min` 5) negb <$> (t_visible <$> texts level5 !! 0%nat)
    /\ log w' = log level5
    /\ actors w' = actors level5
    /\ audios w' = audios level5.
Proof.
  apply (flash_toggles_min (H := Sprites0) level5 0 0 5 7).
  - vm_compute. reflexivity.
  - vm_compute. reflexivity.
Defined.

(** ** The intro walk *)

Lemma set_x_back a x0 :
  set_x (x a) (set_x x0 (set_animation "walk" (set_disableControls true a)))
  = set_animation "walk" (set_disableControls true a).
Proof. by destruct a. Qed.

Section Intro.

Context `{Sprites}.

(** What [intro] does on a level that was created and populated. *)
Lemma intro_ok w p a i1 :
  get "game" w = VRef RGame ->
  get "player" w = VRef (RActor p) ->
  actors w !! p = Some a ->
  get "introMusic" w = VRef (RAudio i1) ->
  exists w',
    Level.intro w = Ok tt w'
    /\ this w' = this w
    /\ actors w' = <[p := set_x (-30) (set_animation "walk" (set_disableControls true a))]> (actors w)
    /\ tweens w'
       = tweens w
         ++ [mkTween (VRef (RActor p)) (TweenFromX (-30)) (x a) 2000 true
               [mkBinding Level_beginIntro (VRef RThis) false]]
    /\ audios w' = alter (fun s => mkAudio (a_key s) (a_loop s) (a_volume s) true) i1 (audios w)
    /\ dialogues w' = dialogues w
    /\ texts w' = texts w
    /\ timers w' = timers w
    /\ log w'
       = log w
         ++ [ AudioPlay (VRef (RAudio i1));
              AnimationsPlay (VRef (RActor p)) "walk";
              AddTween (length (tweens w));
              SignalAdd (VRef (RTween (length (tweens w))))
                (mkBinding Level_beginIntro (VRef RThis) false) ].
Proof.
  intros Hg Hp Ha H1.
  unfold Level.intro, sound_play, sprite_set_disableControls, animations_play,
    add_tween_from_x, tween_onComplete_add, the_audio, the_actor, the_game,
    not_nullish.
  run_monad.
  unfold get, put in *; simpl in *.
  repeat first [rewrite Hg | rewrite Hp | rewrite H1 | progress read_this].
  rewrite !list_lookup_alter_eq, Ha. simpl.
  eexists. split; [reflexivity|]. simpl.
  rewrite alter_app_r_alt by done. rewrite Nat.sub_diag. simpl.
  repeat split.
  - apply list_eq. intros i. destruct (decide (i = p)) as [->|Hi].
    + rewrite !list_lookup_alter_eq, Ha, list_lookup_insert_eq
        by (by eapply lookup_lt_Some).
      done.
    + by rewrite !list_lookup_alter_ne, list_lookup_insert_ne.
  - by rewrite <- !app_assoc.
Qed.

Lemma beginIntro_rest w p w' :
  get "game" w = VRef RGame ->
  get "player" w = VRef (RActor p) ->
  Level._beginIntro w = Ok tt w' ->
  tweens w' = tweens w /\ audios w' = audios w.
Proof.
  intros Hg Hp.
  unfold Level._beginIntro, animations_play, new_DialogueManager,
    dialogue_start, dialogue_onFinished_addOnce, the_actor, the_dialogue.
  run_monad.
  unfold get, put in *; simpl in *.
  repeat first [rewrite Hg | rewrite Hp | progress read_this].
  intros [= <-]. done.
Qed.

(** The end of a running tween with one listener that stays bound. *)
Lemma tween_complete_bound w t p x0 rest d l c :
  tweens w !! t
  = Some (mkTween (VRef (RActor p)) (TweenFromX x0) rest d true [mkBinding l c false]) ->
  deliver Level.run_listener (TweenComplete t) w
  = (Level.run_listener l c ≫= fun _ => mret tt)
      (update_actor p (set_x rest)
         (set_tweens
            (<[t := mkTween (VRef (RActor p)) (TweenFromX x0) rest d false
                      [mkBinding l c false]]> (tweens w)) w)).
Proof.
  intros Ht. simpl. unfold tween_complete. run_monad. rewrite Ht. simpl.
  unfold mbind, M_bind, lift. cbv beta iota.
  replace (update_tween t _ w)
    with (set_tweens
            (<[t := mkTween (VRef (RActor p)) (TweenFromX x0) rest d false
                      [mkBinding l c false]]> (tweens w)) w); [done|].
  unfold update_tween. f_equal.
  apply list_eq. intros i. destruct (decide (i = t)) as [->|Hi].
  - rewrite list_lookup_alter_eq, Ht, list_lookup_insert_eq
      by (by eapply lookup_lt_Some).
    done.
  - by rewrite list_lookup_alter_ne, list_lookup_insert_ne.
Qed.

(** The end of a tween that has stopped changes nothing. *)
Lemma tween_complete_stopped w t tw k :
  tweens w !! t = Some tw ->
  tw_running tw = false ->
  deliver_all (replicate k (TweenComplete t)) w = Ok tt w.
Proof.
  intros Ht Hr. induction k as [|k IH]; [done|].
  simpl replicate. rewrite deliver_all_cons.
  simpl. unfold tween_complete. run_monad. rewrite Ht. simpl. rewrite Hr. done.
Qed.

(** X4.  [intro] on a populated level disables the player's controls and
    sends the player walking in from x = -30; when the walk tween ends
    (however many times the engine reports it, N >= 1) the player stands
    where it stood before, controls still disabled, and exactly one dialogue
    has been started, keyed by the level's name followed by [_intro], with
    [_startMission] bound once to its end. *)
Theorem intro_walk_starts_dialogue (w : World) (p : nat) (a : Actor) (i1 N : nat) :
  Level.reachable w ->
  get "player" w = VRef (RActor p) ->
  actors w !! p = Some a ->
  get "introMusic" w = VRef (RAudio i1) ->
  (1 <= N)%nat ->
  exists w1 w2 name,
    Level.intro w = Ok tt w1
    /\ actors w1 !! p
       = Some (set_x (-30) (set_animation "walk" (set_disableControls true a)))
    /\ deliver_all (replicate N (TweenComplete (length (tweens w)))) w1 = Ok tt w2
    /\ actors w2 !! p = Some (set_animation "stand" (set_disableControls true a))
    /\ get "name" w = VStr name
    /\ dialogues w2
       = dialogues w ++ [mkDialogue (Some (name +:+ "_intro")) [startMission_once]]
    /\ get "dialogue" w2 = VRef (RDialogue (length (dialogues w))).
Proof.
  intros Hr Hp Ha H1 HN.
  destruct (reachable_inv w Hr) as (Hg & _).
  destruct (reachable_name w Hr) as [name Hname].
  destruct (intro_ok w p a i1 Hg Hp Ha H1)
    as (w1 & Hi & Hth & Hac & Htw & _ & Hdl & _ & _ & _).
  set (t := length (tweens w)) in *.
  assert (Ht : tweens w1 !! t
               = Some (mkTween (VRef (RActor p)) (TweenFromX (-30)) (x a) 2000 true
                         [mkBinding Level_beginIntro (VRef RThis) false])).
  { rewrite Htw. by apply list_lookup_middle. }
  assert (Hp1 : actors w1 !! p
                = Some (set_x (-30) (set_animation "walk" (set_disableControls true a)))).
  { rewrite Hac. apply list_lookup_insert_eq. by eapply lookup_lt_Some. }
  set (w1' := update_actor p (set_x (x a))
                (set_tweens
                   (<[t := mkTween (VRef (RActor p)) (TweenFromX (-30)) (x a) 2000 false
                             [mkBinding Level_beginIntro (VRef RThis) false]]>
                      (tweens w1)) w1)).
  assert (Hg' : get "game" w1' = VRef RGame).
  { change (default VUndefined (this w1 !! "game") = VRef RGame). by rewrite Hth. }
  assert (Hp' : get "player" w1' = VRef (RActor p)).
  { change (default VUndefined (this w1 !! "player") = VRef (RActor p)). by rewrite Hth. }
  destruct (beginIntro_ok w1' p Hg' Hp')
    as (w2 & Hb & Hd2 & Hdg & _ & Hac2 & _ & _ & _).
  destruct (beginIntro_rest w1' p w2 Hg' Hp' Hb) as [Htw2 _].
  exists w1, w2, name. repeat split; try done.
  - destruct N as [|n]; [lia|].
    simpl replicate. rewrite deliver_all_cons.
    rewrite (tween_complete_bound w1 t p (-30) (x a) 2000 _ _ Ht). fold w1'.
    unfold mbind, M_bind. simpl Level.run_listener. rewrite Hb.
    apply tween_complete_stopped
      with (mkTween (VRef (RActor p)) (TweenFromX (-30)) (x a) 2000 false
              [mkBinding Level_beginIntro (VRef RThis) false]);
      [|done].
    rewrite Htw2. unfold w1'. simpl.
    apply list_lookup_insert_eq. by eapply lookup_lt_Some.
  - rewrite Hac2. unfold w1'. simpl.
    rewrite !list_lookup_alter_eq, Hp1. simpl.
    rewrite set_x_back. by destruct a.
  - rewrite Hd2.
    assert (Hn' : get "name" w1' = VStr name).
    { change (default VUndefined (this w1 !! "name") = VStr name). by rewrite Hth. }
    rewrite Hn'. unfold w1'. simpl. by rewrite Hdl.
  - rewrite Hdg. unfold w1'. simpl. by rewrite Hdl.
Qed.

End Intro.

Lemma intro_walk_starts_dialogue_witness :
  exists w1 w2 name,
    Level.intro level2 = Ok tt w1
    /\ actors w1 !! 0%nat
       = Some (set_x (-30) (set_animation "walk" (set_disableControls true player0)))
    /\ deliver_all (H := Sprites0) (replicate 2 (TweenComplete (length (tweens level2)))) w1
       = Ok tt w2
    /\ actors w2 !! 0%nat = Some (set_animation "stand" (set_disableControls true player0))
    /\ get "name" level2 = VStr name
    /\ dialogues w2
       = dialogues level2 ++ [mkDialogue (Some (name +:+ "_intro")) [startMission_once]]
    /\ get "dialogue" w2 = VRef (RDialogue (length (dialogues level2))).
Proof.
  apply (intro_walk_starts_dialogue (H := Sprites0) level2 0 player0 0 2).
  - level2_is_reachable.
  - vm_compute. reflexivity.
  - vm_compute. reflexivity.
  - vm_compute. reflexivity.
  - lia.
Defined.

(** ** Methods called too early *)

Section TooEarly.

Context `{Sprites}.

(** X5.  [intro] on a level that has no player yet always throws: at once
    when the level has no intro music either (it was not created), and
    otherwise after the intro music has been started.  No sprite is touched
    and no tween is made. *)
Theorem intro_without_player_throws (w : World) :
  this w !! "player" = None ->
  exists e w',
    Level.intro w = Throw e w'
    /\ this w' = this w
    /\ actors w' = actors w
    /\ tweens w' = tweens w
    /\ (this w !! "introMusic" = None -> w' = w /\ e = TypeError "sound")
    /\ (forall i, get "introMusic" w = VRef (RAudio i) ->
          log w' = log w ++ [AudioPlay (VRef (RAudio i))]
          /\ a_playing <$> audios w' !! i = (fun _ => true) <$> audios w !! i
          /\ e = TypeError "property of undefined").
Proof.
  intros Hp.
  assert (Hp' : get "player" w = VUndefined) by (unfold get; by rewrite Hp).
  unfold Level.intro, sound_play, sprite_set_disableControls, the_audio, not_nullish.
  run_monad.
  destruct (get "introMusic" w) as [| | | | |[]] eqn:Hm.
  all: try (exists (TypeError "sound"), w; split; [reflexivity|];
            split; [done|]; split; [done|]; split; [done|];
            split; [done|]; intros ? Hi; discriminate Hi).
  unfold get in *. simpl. rewrite Hp'. simpl.
  eexists _, _. split; [reflexivity|]. simpl.
  split; [done|]. split; [done|]. split; [done|]. split.
  - intros Hn. rewrite Hn in Hm. discriminate.
  - intros i [= <-]. split; [done|]. split; [|done].
    rewrite list_lookup_alter_eq. by destruct (audios w !! a).
Qed.

(** X6.  [createObjects] called with [undefined] or [null] for the player
    throws when it reads the player's bullets: by then the level's player
    has been overwritten, and nothing else has happened (no enemy was
    spawned, no engine call was made, the level's bullets are as before). *)
Theorem createObjects_without_player_throws (w : World) (player : Value) :
  player = VUndefined \/ player = VNull ->
  Level.createObjects player w
  = Throw (TypeError "property of undefined") (put "player" player w).
Proof.
  intros [-> | ->]; reflexivity.
Qed.

End TooEarly.

Lemma intro_without_player_throws_witness :
  exists e w',
    Level.intro level1 = Throw e w'
    /\ this w' = this level1
    /\ actors w' = actors level1
    /\ tweens w' = tweens level1
    /\ (this level1 !! "introMusic" = None -> w' = level1 /\ e = TypeError "sound")
    /\ (forall i, get "introMusic" level1 = VRef (RAudio i) ->
          log w' = log level1 ++ [AudioPlay (VRef (RAudio i))]
          /\ a_playing <$> audios w' !! i = (fun _ => true) <$> audios level1 !! i
          /\ e = TypeError "property of undefined").
Proof.
  apply (intro_without_player_throws level1).
  vm_compute. reflexivity.
Defined.

Lemma createObjects_without_player_throws_witness :
  Level.createObjects (H := Sprites0) VNull level1
  = Throw (TypeError "property of undefined") (put "player" VNull level1).
Proof.
  apply (createObjects_without_player_throws (H := Sprites0) level1 VNull).
  by right.
Defined.

(** ** The sweep and the sprites around it *)

Section Passes2.

Variable on_collide : Callback -> nat -> nat -> World -> World.
Variable on_process : Callback -> nat -> nat -> World -> bool.

(** A pass whose first object has no members only records itself. *)
Lemma collide_no_members o1 o2 cb proc w :
  members o1 w = [] ->
  collide on_collide on_process o1 o2 cb proc w = record (Collide o1 o2 cb proc) w.
Proof. intros Hm. unfold collide. simpl members. by rewrite Hm. Qed.

End Passes2.

Lemma record_as_set_log c w : record c w = set_log (log w ++ [c]) w.
Proof. reflexivity. Qed.

Lemma record_set_log c l w : record c (set_log l w) = set_log (l ++ [c]) w.
Proof. reflexivity. Qed.

Section SweepMore.

Context `{Sprites}.

Local Abbreviation pass := (collide Level.on_collide Level.on_process).

(** X7.  Before the level is populated it has neither player nor bullets,
    and a sweep calls no callback at all: it makes its six passes and
    leaves the world as it was, the log apart. *)
Theorem handleCollisions_before_populate (w : World) :
  Level.reachable w ->
  this w !! "player" = None ->
  this w !! "bullets" = None ->
  Level.handleCollisions w
  = Ok tt
      (set_log
         (log w
          ++ [ Collide VUndefined (get "enemies" w)
                 (Some Level_playerEnemyCollision) (Some Level_playerEnemyProcess);
               Collide VUndefined (get "mapLayer" w)
                 (Some Level_bulletWallCollision) None;
               Collide VUndefined (get "enemies" w)
                 (Some Level_bulletEnemyCollision) None;
               Collide VUndefined (get "mapLayer" w) None None;
               Collide (get "enemies" w) (get "mapLayer" w) None None;
               Collide VUndefined (get "mapLayer" w) None None ]) w).
Proof.
  intros Hr Hp Hb. destruct (reachable_inv w Hr) as (Hg & _ & Hgib & _).
  rewrite handleCollisions_ok by done. cbv zeta.
  assert (Ep : get "player" w = VUndefined) by (unfold get; by rewrite Hp).
  assert (Eb : get "bullets" w = VUndefined) by (unfold get; by rewrite Hb).
  assert (Eg : get "giblets" w = VUndefined) by (unfold get; by rewrite Hgib).
  rewrite Ep, Eb, Eg.
  rewrite !collide_no_members by done.
  rewrite (record_as_set_log _ w), !record_set_log.
  by rewrite <- !app_assoc.
Qed.

End SweepMore.

Lemma handleCollisions_before_populate_witness :
  Level.handleCollisions (H := Sprites0) level1
  = Ok tt
      (set_log
         (log level1
          ++ [ Collide VUndefined (get "enemies" level1)
                 (Some Level_playerEnemyCollision) (Some Level_playerEnemyProcess);
               Collide VUndefined (get "mapLayer" level1)
                 (Some Level_bulletWallCollision) None;
               Collide VUndefined (get "enemies" level1)
                 (Some Level_bulletEnemyCollision) None;
               Collide VUndefined (get "mapLayer" level1) None None;
               Collide (get "enemies" level1) (get "mapLayer" level1) None None;
               Collide VUndefined (get "mapLayer" level1) None None ]) level1).
Proof.
  apply (handleCollisions_before_populate (H := Sprites0) level1).
  - unfold level1, level0. apply Level.reachable_run, Level.reachable_new.
  - vm_compute. reflexivity.
  - vm_compute. reflexivity.
Defined.

Section SweepFrame.

Context `{Sprites}.

Local Abbreviation pass := (collide Level.on_collide Level.on_process).

(** A collision callback of the level only rewrites sprites. *)
Lemma on_collide_only_actors c i j w :
  exists l,
    Level.on_collide c i j w = set_actors l w /\ length l = length (actors w).
Proof.
  destruct c; simpl;
    unfold Level._bulletWallCollision, Level._playerEnemyCollision,
      Level._bulletEnemyCollision, update_actor;
    repeat case_match; simpl;
    try (eexists; split; [reflexivity|]; by rewrite ?length_alter);
    exists (actors w); by destruct w.
Qed.

(** A pass of the level only rewrites sprites and extends the log. *)
Lemma pass_shape o1 o2 cb proc w0 l lg :
  length l = length (actors w0) ->
  exists l' lg',
    pass o1 o2 cb proc (set_log lg (set_actors l w0)) = set_log lg' (set_actors l' w0)
    /\ length l' = length (actors w0).
Proof.
  intros Hl. unfold collide.
  apply (collide_all_ind Level.on_collide Level.on_process
           (fun w' => exists l' lg',
                w' = set_log lg' (set_actors l' w0) /\ length l' = length (actors w0))).
  - intros c i j a b w' _ _ _ _ _ _ _ (l' & lg' & -> & Hl').
    destruct (on_collide_only_actors c i j
                (record (Invoke c i j) (set_log lg' (set_actors l' w0))))
      as (l'' & -> & Hl'').
    exists l'', (lg' ++ [Invoke c i j]). split; [done|].
    simpl in Hl''. congruence.
  - exists l, (lg ++ [Collide o1 o2 cb proc]). done.
Qed.


End SweepFrame.


(** ** The enemies of a populated level *)



Section Populate.

Context `{Sprites}.


End Populate.


(** ** The frame update of the main state, running *)

Section MainRunning.

Context `{Sprites}.

Local Abbreviation mpass := (collide Main.on_collide Main.on_process).

Lemma world_ext w1 w2 :
  this w1 = this w2 -> actors w1 = actors w2 -> groups w1 = groups w2 ->
  layers w1 = layers w2 -> objects w1 = objects w2 -> audios w1 = audios w2 ->
  dialogues w1 = dialogues w2 -> texts w1 = texts w2 -> timers w1 = timers w2 ->
  tweens w1 = tweens w2 -> camera_width w1 = camera_width w2 ->
  camera_height w1 = camera_height w2 -> fps w1 = fps w2 -> log w1 = log w2 ->
  w1 = w2.
Proof. destruct w1, w2. simpl. by intros -> -> -> -> -> -> -> -> -> -> -> -> -> ->. Qed.

Ltac world_eq :=
  apply world_ext; simpl; rewrite <- ?app_assoc; reflexivity.

(** What a bullet handler of the main state does, after the engine has
    recorded the call. *)
Lemma handler_effect c i j w :
  c = Main_bulletWallCollision \/ c = Main_bulletEnemyCollision ->
  exists acts tw,
    Main.on_collide c i j (record (Invoke c i j) w)
    = set_log (log w ++ [Invoke c i j; AddTween (length (tweens w));
                         SignalAdd (VRef (RTween (length (tweens w))))
                           (mkBinding Main_destroyBullet (VRef (RActor i)) false)])
        (set_tweens (tweens w ++ [tw]) (set_actors acts w))
    /\ tw_target tw = VRef (RActor i)
    /\ length acts = length (actors w)
    /\ (forall k, k ≠ i -> k ≠ j -> acts !! k = actors w !! k)
    /\ (is_Some (actors w !! i) -> body_enable <$> acts !! i = Some false).
Proof.
  intros [-> | ->]; simpl.
  - unfold Main._bulletWallCollision, Main.tween_scale_then_destroy, update_tween,
      update_actor. simpl.
    rewrite alter_app_r_alt by done. rewrite Nat.sub_diag. simpl.
    eexists _, _. split; [world_eq|]. simpl.
    split; [done|]. split; [by rewrite !length_alter|]. split.
    + intros k Hi Hj. by rewrite !list_lookup_alter_ne.
    + intros [a Ha]. by rewrite !list_lookup_alter_eq, Ha.
  - unfold Main._bulletEnemyCollision, Main.tween_scale_then_destroy, update_tween,
      update_actor. simpl.
    destruct (actors w !! i) as [b|] eqn:Hb; simpl;
      rewrite alter_app_r_alt by done; rewrite Nat.sub_diag; simpl.
    + eexists _, _. split; [world_eq|]. simpl.
      split; [done|]. split; [by rewrite !length_alter|]. split.
      * intros k Hi Hj. by rewrite !list_lookup_alter_ne.
      * intros _. rewrite !list_lookup_alter_eq.
        destruct (decide (i = j)) as [->|Hij].
        -- by rewrite list_lookup_alter_eq, Hb.
        -- by rewrite list_lookup_alter_ne, Hb.
    + eexists _, _. split; [world_eq|]. simpl.
      split; [done|]. split; [by rewrite !length_alter|]. split.
      * intros k Hi Hj. by rewrite !list_lookup_alter_ne.
      * by intros [? ?].
Qed.





Lemma hits_of_snoc b l c :
  hits_of b (l ++ [c]) = hits_of b l ++ (if is_hit_of b c then [c] else []).
Proof.
  unfold hits_of. rewrite filter_app. f_equal.
  destruct (is_hit_of b c) eqn:E.
  - by rewrite filter_cons_True, filter_nil.
  - rewrite filter_cons_False, filter_nil by congruence. done.
Qed.

Lemma tweens_of_snoc b l t :
  filter (fun t => tw_target t = VRef (RActor b)) (l ++ [t])
  = filter (fun t => tw_target t = VRef (RActor b)) l
    ++ (if decide (tw_target t = VRef (RActor b)) then [t] else []).
Proof.
  rewrite filter_app. by f_equal.
Qed.

Lemma main_pass_once b n m o1 o2 cb w :
  cb = None \/ cb = Some Main_bulletWallCollision \/ cb = Some Main_bulletEnemyCollision ->
  hit_at_most_once b n m w -> hit_at_most_once b n m (mpass o1 o2 cb None w).
Proof.
  intros Hcb Hw. unfold collide.
  apply (collide_all_ind Main.on_collide Main.on_process (hit_at_most_once b n m)).
  - intros c i j ai aj w' Hc _ _ Hai Haj Hcol _ Hw'.
    assert (Hc' : c = Main_bulletWallCollision \/ c = Main_bulletEnemyCollision).
    { destruct Hcb as [-> | [-> | ->]]; [discriminate|left|right]; congruence. }
    destruct (collidable_enabled ai aj Hcol) as [Hei Hej].
    destruct (handler_effect c i j w' Hc') as (acts & tw & -> & Htw & _ & Hk & Hdis).
    unfold hit_at_most_once, tweens_of in *. simpl.
    rewrite tweens_of_snoc, Htw.
    replace (log w' ++ [Invoke c i j; AddTween (length (tweens w'));
                        SignalAdd (VRef (RTween (length (tweens w'))))
                          (mkBinding Main_destroyBullet (VRef (RActor i)) false)])
      with (((log w' ++ [Invoke c i j]) ++ [AddTween (length (tweens w'))])
            ++ [SignalAdd (VRef (RTween (length (tweens w'))))
                  (mkBinding Main_destroyBullet (VRef (RActor i)) false)])
      by (by rewrite <- !app_assoc).
    rewrite !hits_of_snoc. simpl. rewrite !app_nil_r.
    destruct (decide (i = b)) as [->|Hi].
    + rewrite Nat.eqb_refl. rewrite decide_True by done.
      rewrite !length_app. simpl.
      destruct Hw' as [[Hn Hm]|(_ & _ & Hd)].
      * right. rewrite Hn, Hm. repeat split; try lia. apply Hdis. eauto.
      * rewrite Hai in Hd. simpl in Hd. congruence.
    + rewrite (proj2 (Nat.eqb_neq i b)) by done.
      rewrite decide_False by congruence.
      rewrite !app_nil_r.
      destruct Hw' as [[Hn Hm]|(Hn & Hm & Hd)]; [by left|].
      right. repeat split; try done.
      destruct (decide (j = b)) as [->|Hj].
      * rewrite Haj in Hd. simpl in Hd. congruence.
      * by rewrite Hk.
  - unfold hit_at_most_once in *. simpl. rewrite hits_of_snoc. simpl.
    by rewrite app_nil_r.
Qed.

Lemma update_preserves_once b n m :
  preserves (hit_at_most_once b n m) Main.update.
Proof.
  assert (Hac : forall o1 o2 cb,
             cb = None \/ cb = Some Main_bulletWallCollision
             \/ cb = Some Main_bulletEnemyCollision ->
             preserves (hit_at_most_once b n m) (Main.arcade_collide o1 o2 cb)).
  { intros o1 o2 cb Hcb. unfold Main.arcade_collide.
    apply preserves_bind; [apply preserves_read|intros v1].
    apply preserves_bind; [apply preserves_read|intros v2].
    apply preserves_lift. intros w1 H1.
    by apply main_pass_once. }
  assert (Htx : forall c v, preserves (hit_at_most_once b n m) (text_set_text c v)).
  { intros c v. unfold text_set_text.
    apply preserves_bind.
    - unfold not_nullish. destruct c; (apply preserves_throw || apply preserves_ret).
    - intros _. destruct c as [| | | | |[]]; try apply preserves_ret.
      apply preserves_lift. intros w1 H1. exact H1. }
  unfold Main.update.
  apply preserves_bind; [apply preserves_read|]. intros r.
  destruct (negb (truthy r)); [apply preserves_ret|].
  do 4 (apply preserves_bind; [apply Hac; auto|intros _]).
  apply preserves_bind; [apply preserves_read|intros c].
  apply preserves_bind; [apply preserves_read|intros f].
  apply Htx.
Qed.

(** X11.  Within one frame of the main state a bullet is handed to a
    bullet handler at most once: a frame adds at most one handler call and
    at most one decay tween for any one sprite, and if it adds one the
    sprite's body is disabled when the frame ends.  A bullet that hits a
    wall in a frame therefore hits no enemy in that frame. *)
Theorem update_hits_a_bullet_once (w : World) (b : nat) :
  hit_at_most_once b (length (hits_of b (log w))) (length (tweens_of b w))
    (exec Main.update w).
Proof. apply update_preserves_once. by left. Qed.

End MainRunning.


(** ** The end of a bullet *)

Section MainDestroy.

Context `{Sprites}.

(** The end of the decay tween a handler started for the bullet [b], as
    tween [t] of the world. *)
Lemma decay_complete w t b :
  tweens w !! t
  = Some (mkTween (VRef (RActor b)) (TweenScaleTo 0 0) 0 200 true
            [mkBinding Main_destroyBullet (VRef (RActor b)) false]) ->
  exists w',
    deliver Main.run_listener (TweenComplete t) w = Ok tt w'
    /\ groups w' = (fun ms : list nat => filter (fun m => m ≠ b) ms) <$> groups w
    /\ actors w' = alter (set_exists false) b (actors w)
    /\ (tw_running <$> tweens w' !! t) = Some false
    /\ log w' = log w
    /\ deliver Main.run_listener (TweenComplete t) w' = Ok tt w'.
Proof.
  intros Ht. simpl. unfold tween_complete. run_monad. rewrite Ht. simpl.
  unfold Main.destroy. simpl.
  eexists. split; [reflexivity|]. simpl.
  rewrite !list_lookup_alter_eq, Ht. simpl.
  repeat split.
Qed.

(** X12.  The decay tween that a bullet handler starts ends in the
    destruction of the bullet it was started for, and of nothing else: when
    the engine reports the tween complete, the bullet exists no more and has
    left every group, every other sprite is as the handler left it, and a
    second report of the same tween changes nothing. *)
Theorem decay_destroys_the_bullet (w : World) (b other : nat) (c : Callback) :
  c = Main_bulletWallCollision \/ c = Main_bulletEnemyCollision ->
  exists w1 w2,
    Main.on_collide c b other w = w1
    /\ deliver Main.run_listener (TweenComplete (length (tweens w))) w1 = Ok tt w2
    /\ groups w2 = (fun ms : list nat => filter (fun m => m ≠ b) ms) <$> groups w
    /\ exists_ <$> actors w2 !! b = (fun _ => false) <$> actors w !! b
    /\ (forall k, k ≠ b -> actors w2 !! k = actors w1 !! k)
    /\ deliver Main.run_listener (TweenComplete (length (tweens w))) w2 = Ok tt w2.
Proof.
  intros Hc.
  assert (Ht : tweens (Main.on_collide c b other w) !! length (tweens w)
               = Some (mkTween (VRef (RActor b)) (TweenScaleTo 0 0) 0 200 true
                         [mkBinding Main_destroyBullet (VRef (RActor b)) false])).
  { destruct Hc as [-> | ->]; simpl;
      unfold Main._bulletWallCollision, Main._bulletEnemyCollision,
        Main.tween_scale_then_destroy, update_tween; simpl;
      destruct (actors w !! b); simpl;
      rewrite alter_app_r_alt by done; rewrite Nat.sub_diag; simpl;
      by apply list_lookup_middle. }
  assert (Hg : groups (Main.on_collide c b other w) = groups w).
  { destruct Hc as [-> | ->]; simpl;
      unfold Main._bulletWallCollision, Main._bulletEnemyCollision;
      by destruct (actors w !! b). }
  assert (Hl : length (actors (Main.on_collide c b other w)) = length (actors w)).
  { destruct Hc as [-> | ->]; simpl;
      unfold Main._bulletWallCollision, Main._bulletEnemyCollision;
      destruct (actors w !! b); simpl; by rewrite ?length_alter. }
  destruct (decay_complete _ _ _ Ht) as (w2 & Hd & Hg2 & Ha2 & _ & _ & Hd2).
  exists (Main.on_collide c b other w), w2.
  split; [reflexivity|]. split; [exact Hd|].
  split; [by rewrite Hg2, Hg|]. split; [|split; [|done]].
  - rewrite Ha2, list_lookup_alter_eq.
    destruct (actors (Main.on_collide c b other w) !! b) as [a1|] eqn:E1;
      destruct (actors w !! b) as [a0|] eqn:E0; try done.
    + apply lookup_lt_Some in E1. apply lookup_ge_None in E0. lia.
    + apply lookup_lt_Some in E0. apply lookup_ge_None in E1. lia.
  - intros k Hk. by rewrite Ha2, list_lookup_alter_ne.
Qed.

End MainDestroy.

Lemma decay_destroys_the_bullet_witness :
  exists w1 w2,
    Main.on_collide (H := Sprites0) Main_bulletEnemyCollision 1 4 main_running = w1
    /\ deliver Main.run_listener (TweenComplete (length (tweens main_running))) w1 = Ok tt w2
    /\ groups w2
       = (fun ms : list nat => filter (fun m => m ≠ 1%nat) ms) <$> groups main_running
    /\ exists_ <$> actors w2 !! 1%nat = (fun _ => false) <$> actors main_running !! 1%nat
    /\ (forall k, k ≠ 1%nat -> actors w2 !! k = actors w1 !! k)
    /\ deliver Main.run_listener (TweenComplete (length (tweens main_running))) w2 = Ok tt w2.
Proof.
  apply (decay_destroys_the_bullet (H := Sprites0) main_running 1 4
           Main_bulletEnemyCollision).
  by right.
Defined.

(** ** Single hits in the level's sweep *)

Section Passes3.

Variable on_collide : Callback -> nat -> nat -> World -> World.
Variable on_process : Callback -> nat -> nat -> World -> bool.

(** A pass over pairs that cannot collide only records itself. *)
Lemma collide_none o1 o2 cb proc w :
  (forall i j a b,
      i ∈ members o1 w -> j ∈ members o2 w ->
      actors w !! i = Some a -> actors w !! j = Some b ->
      collidable a b = false) ->
  collide on_collide on_process o1 o2 cb proc w = record (Collide o1 o2 cb proc) w.
Proof.
  intros Hno. unfold collide.
  apply (collide_all_ind on_collide on_process
           (fun w' => w' = record (Collide o1 o2 cb proc) w)); [|done].
  intros c i j a b w' _ Hi Hj Ha Hb Hcol _ ->. exfalso.
  simpl in Ha, Hb. rewrite (Hno i j a b Hi Hj Ha Hb) in Hcol. discriminate.
Qed.

(** A pass of one sprite against one sprite is the one pair. *)
Lemma collide_single o1 o2 cb proc w i j :
  members o1 w = [i] ->
  members o2 w = [j] ->
  collide on_collide on_process o1 o2 cb proc w
  = collide_pair on_collide on_process cb proc i j (record (Collide o1 o2 cb proc) w).
Proof.
  intros H1 H2. unfold collide. simpl members. rewrite H1, H2. reflexivity.
Qed.

End Passes3.

Section SingleHits.

Context `{Sprites}.

Local Abbreviation pass := (collide Level.on_collide Level.on_process).

(** A pass calls no callback with a sprite first that is not a member of
    its first object. *)
Lemma pass_hits_other b o1 o2 cb proc w :
  b ∉ members o1 w ->
  hits_of b (log (pass o1 o2 cb proc w)) = hits_of b (log w).
Proof.
  intros Hb. unfold collide.
  apply (collide_all_ind Level.on_collide Level.on_process
           (fun w' => hits_of b (log w') = hits_of b (log w))).
  - intros c i j ai aj w' _ Hi _ _ _ _ _ Hw'.
    destruct (on_collide_frame c i j (record (Invoke c i j) w')) as (_ & _ & _ & -> & _).
    simpl. rewrite hits_of_snoc. simpl.
    rewrite (proj2 (Nat.eqb_neq i b)) by (by intros ->).
    by rewrite app_nil_r.
  - simpl. rewrite hits_of_snoc. simpl. by rewrite app_nil_r.
Qed.

(** A pass neither adds nor removes a sprite. *)
Lemma pass_lookup_is_Some o1 o2 cb proc w k :
  is_Some (actors (pass o1 o2 cb proc w) !! k) -> is_Some (actors w !! k).
Proof.
  destruct (pass_shape o1 o2 cb proc w (actors w) (log w) eq_refl)
    as (l1 & lg1 & E1 & Hl1).
  replace (set_log (log w) (set_actors (actors w) w)) with w in E1
    by (by destruct w).
  rewrite E1. simpl. rewrite !lookup_lt_is_Some. lia.
Qed.

(** X13.  A bullet that overlaps the one enemy of the level and no terrain
    tile is hit once in a sweep, by the enemy callback and not by the wall
    callback: the enemy gets [enemy.hit(bullet)] with the bullet as it
    was, and then the bullet gets [bullet.hit(enemy)] with the enemy as the
    hit left it. *)
Theorem bullet_hits_one_enemy (w : World) (b e : nat) (ab ae : Actor) :
  Level.reachable w ->
  members (get "bullets" w) w = [b] ->
  members (get "enemies" w) w = [e] ->
  b ≠ e ->
  b ∉ members (get "player" w) w ->
  e ∉ members (get "player" w) w ->
  actors w !! b = Some ab ->
  actors w !! e = Some ae ->
  collidable ab ae = true ->
  (forall t tile,
      t ∈ members (get "mapLayer" w) w -> actors w !! t = Some tile ->
      (t ∉ members (get "player" w) w) /\ collidable ab tile = false) ->
  exists w',
    Level.handleCollisions w = Ok tt w'
    /\ actors w' !! e = Some (Enemy_hit ae ab)
    /\ actors w' !! b = Some (Bullet_hit ab (Enemy_hit ae ab))
    /\ hits_of b (log w') = hits_of b (log w) ++ [Invoke Level_bulletEnemyCollision b e].
Proof.
  intros Hr Hbs Hes Hbe Hbp Hep Hb He Hcol Htiles.
  destruct (reachable_inv w Hr) as (Hg & _).
  eexists. split; [by apply handleCollisions_ok|]. cbv zeta.
  destruct (pass_frame (get "player" w) (get "enemies" w)
              (Some Level_playerEnemyCollision) (Some Level_playerEnemyProcess) w)
    as (_ & G1 & L1 & _ & A1 & _).
  pose proof (pass_hits_other b (get "player" w) (get "enemies" w)
                (Some Level_playerEnemyCollision) (Some Level_playerEnemyProcess) w Hbp)
    as H1.
  set (w1 := pass (get "player" w) (get "enemies" w) _ _ w) in *.
  assert (M1 : forall o, members o w1 = members o w)
    by (intros o; by apply members_same).
  assert (Hb1 : actors w1 !! b = Some ab) by (rewrite A1; auto).
  assert (He1 : actors w1 !! e = Some ae) by (rewrite A1; auto).
  rewrite (collide_none _ _ (get "bullets" w) (get "mapLayer" w) _ _ w1).
  2:{ intros i j a t. rewrite !M1, Hbs. intros Hi Hj Ha Ht.
      apply list_elem_of_singleton in Hi as ->.
      assert (a = ab) as -> by congruence.
      assert (Ht0 : actors w !! j = Some t).
      { destruct (actors w !! j) as [t0|] eqn:E.
        - destruct (Htiles j t0 Hj E) as [Hout _]. rewrite <- E, <- A1; auto.
        - destruct (pass_lookup_is_Some (get "player" w) (get "enemies" w)
                      (Some Level_playerEnemyCollision)
                      (Some Level_playerEnemyProcess) w j) as [? E'];
            [by exists t|congruence]. }
      by destruct (Htiles j t Hj Ht0). }
  rewrite (collide_single _ _ (get "bullets" w) (get "enemies" w) _ _ _ b e)
    by (rewrite (members_same _ w1) by reflexivity; by rewrite M1).
  unfold collide_pair. simpl actors. rewrite Hb1, He1, Hcol.
  simpl. unfold Level._bulletEnemyCollision. simpl. rewrite Hb1. simpl.
  rewrite list_lookup_alter_eq, He1. simpl.
  split; [|split].
  - by rewrite list_lookup_alter_ne, list_lookup_alter_eq, He1.
  - by rewrite list_lookup_alter_eq, list_lookup_alter_ne, Hb1.
  - rewrite !hits_of_snoc. simpl. rewrite Nat.eqb_refl, !app_nil_r. by rewrite H1.
Qed.

(** X14.  A player who is not invincible and overlaps the one enemy of the
    level is hit once in a sweep, with the enemy's damage: the process
    callback lets the pair through and the collide callback calls
    [player.hit(enemy.damage)]; no later pass of the sweep changes the
    player again. *)
Theorem player_hit_by_one_enemy (w : World) (p e : nat) (ap ae : Actor) :
  Level.reachable w ->
  members (get "player" w) w = [p] ->
  members (get "enemies" w) w = [e] ->
  p ≠ e ->
  p ∉ members (get "bullets" w) w ->
  actors w !! p = Some ap ->
  actors w !! e = Some ae ->
  collidable ap ae = true ->
  invincible ap = false ->
  exists w',
    Level.handleCollisions w = Ok tt w'
    /\ actors w' !! p = Some (Player_hit ap (damage ae))
    /\ hits_of p (log w') = hits_of p (log w) ++ [Invoke Level_playerEnemyCollision p e].
Proof.
  intros Hr Hps Hes Hpe Hpb Hp He Hcol Hinv.
  destruct (reachable_inv w Hr) as (Hg & _).
  eexists. split; [by apply handleCollisions_ok|]. cbv zeta.
  rewrite (collide_single _ _ (get "player" w) (get "enemies" w) _ _ _ p e)
    by done.
  set (w1 := collide_pair _ _ _ _ p e _).
  assert (Hw1 : w1 = update_actor p (fun a => Player_hit a (damage ae))
                       (record (Invoke Level_playerEnemyCollision p e)
                          (record (Collide (get "player" w) (get "enemies" w)
                                     (Some Level_playerEnemyCollision)
                                     (Some Level_playerEnemyProcess)) w))).
  { unfold w1, collide_pair. simpl actors. rewrite Hp, He, Hcol.
    simpl. unfold Level._playerEnemyProcess, Level._playerEnemyCollision.
    simpl. by rewrite Hp, He, Hinv. }
  clearbody w1.
  assert (M1 : forall o, members o w1 = members o w)
    by (intros o; apply members_same; by rewrite Hw1).
  assert (Hp1 : actors w1 !! p = Some (Player_hit ap (damage ae)))
    by (rewrite Hw1; simpl; by rewrite list_lookup_alter_eq, Hp).
  assert (H1 : hits_of p (log w1)
               = hits_of p (log w) ++ [Invoke Level_playerEnemyCollision p e]).
  { rewrite Hw1. simpl. rewrite !hits_of_snoc. simpl.
    by rewrite Nat.eqb_refl, app_nil_r. }
  destruct (pass_frame (get "bullets" w) (get "mapLayer" w)
              (Some Level_bulletWallCollision) None w1)
    as (_ & G2 & L2 & _ & A2 & _).
  pose proof (pass_hits_other p (get "bullets" w) (get "mapLayer" w)
                (Some Level_bulletWallCollision) None w1) as H2.
  set (w2 := pass (get "bullets" w) (get "mapLayer" w) _ _ w1) in *.
  assert (M2 : forall o, members o w2 = members o w)
    by (intros o; rewrite <- M1; by apply members_same).
  destruct (pass_frame (get "bullets" w) (get "enemies" w)
              (Some Level_bulletEnemyCollision) None w2)
    as (_ & _ & _ & _ & A3 & _).
  pose proof (pass_hits_other p (get "bullets" w) (get "enemies" w)
                (Some Level_bulletEnemyCollision) None w2) as H3.
  set (w3 := pass (get "bullets" w) (get "enemies" w) _ _ w2) in *.
  clearbody w3 w2. simpl. split.
  - rewrite A3, A2, Hp1; rewrite ?M1, ?M2; auto.
    left. rewrite Hes. by intros ->%list_elem_of_singleton.
  - rewrite !hits_of_snoc. simpl. rewrite !app_nil_r.
    rewrite H3, H2, H1; rewrite ?M1, ?M2; auto.
Qed.

(** X15.  A bullet that overlaps the one tile of the terrain is hit by the
    wall callback with that tile, in the second pass; when the hit leaves
    it overlapping no enemy, the wall hit is its only hit of the sweep. *)
Theorem bullet_hits_wall (w : World) (b t : nat) (ab tile : Actor) :
  Level.reachable w ->
  members (get "bullets" w) w = [b] ->
  members (get "mapLayer" w) w = [t] ->
  b ≠ t ->
  b ∉ members (get "player" w) w ->
  t ∉ members (get "player" w) w ->
  b ∉ members (get "enemies" w) w ->
  actors w !! b = Some ab ->
  actors w !! t = Some tile ->
  collidable ab tile = true ->
  (forall e ae,
      e ∈ members (get "enemies" w) w -> actors w !! e = Some ae ->
      (e ∉ members (get "player" w) w)
      /\ collidable (Bullet_hit ab tile) ae = false) ->
  exists w',
    Level.handleCollisions w = Ok tt w'
    /\ actors w' !! b = Some (Bullet_hit ab tile)
    /\ hits_of b (log w') = hits_of b (log w) ++ [Invoke Level_bulletWallCollision b t].
Proof.
  intros Hr Hbs Hts Hbt Hbp Htp Hbe Hb Ht Hcol Henemies.
  destruct (reachable_inv w Hr) as (Hg & _).
  eexists. split; [by apply handleCollisions_ok|]. cbv zeta.
  destruct (pass_frame (get "player" w) (get "enemies" w)
              (Some Level_playerEnemyCollision) (Some Level_playerEnemyProcess) w)
    as (_ & G1 & L1 & _ & A1 & _).
  pose proof (pass_hits_other b (get "player" w) (get "enemies" w)
                (Some Level_playerEnemyCollision) (Some Level_playerEnemyProcess) w Hbp)
    as H1.
  pose proof (pass_lookup_is_Some (get "player" w) (get "enemies" w)
                (Some Level_playerEnemyCollision) (Some Level_playerEnemyProcess) w)
    as S1.
  set (w1 := pass (get "player" w) (get "enemies" w) _ _ w) in *.
  assert (M1 : forall o, members o w1 = members o w)
    by (intros o; by apply members_same).
  assert (Hb1 : actors w1 !! b = Some ab) by (rewrite A1; auto).
  assert (Ht1 : actors w1 !! t = Some tile) by (rewrite A1; auto).
  clearbody w1.
  rewrite (collide_single _ _ (get "bullets" w) (get "mapLayer" w) _ _ _ b t)
    by (by rewrite M1).
  set (w2 := collide_pair _ _ _ _ b t _).
  assert (Hw2 : w2 = update_actor b (fun a => Bullet_hit a tile)
                       (record (Invoke Level_bulletWallCollision b t)
                          (record (Collide (get "bullets" w) (get "mapLayer" w)
                                     (Some Level_bulletWallCollision) None) w1))).
  { unfold w2, collide_pair. simpl actors. rewrite Hb1, Ht1, Hcol.
    simpl. unfold Level._bulletWallCollision. simpl. by rewrite Ht1. }
  clearbody w2.
  assert (M2 : forall o, members o w2 = members o w)
    by (intros o; rewrite <- M1; apply members_same; by rewrite Hw2).
  assert (Hb2 : actors w2 !! b = Some (Bullet_hit ab tile))
    by (rewrite Hw2; simpl; by rewrite list_lookup_alter_eq, Hb1).
  rewrite (collide_none _ _ (get "bullets" w) (get "enemies" w) _ _ w2).
  2:{ intros i j a ae. rewrite !M2, Hbs. intros Hi Hj Ha Hae.
      apply list_elem_of_singleton in Hi as ->.
      assert (a = Bullet_hit ab tile) as -> by congruence.
      assert (Hjb : j ≠ b) by (by intros ->).
      rewrite Hw2 in Hae. simpl in Hae.
      rewrite list_lookup_alter_ne in Hae by done.
      destruct (actors w !! j) as [ae0|] eqn:E.
      - destruct (Henemies j ae0 Hj E) as [Hout Hno].
        rewrite A1 in Hae by auto. congruence.
      - destruct (S1 j) as [? E']; [by exists ae|congruence]. }
  simpl. split.
  - done.
  - rewrite !hits_of_snoc. simpl. rewrite !app_nil_r.
    rewrite Hw2. simpl. rewrite !hits_of_snoc. simpl.
    by rewrite Nat.eqb_refl, app_nil_r, H1.
Qed.

End SingleHits.

Lemma bullet_hits_one_enemy_witness :
  exists w',
    Level.handleCollisions (H := Sprites0) level2_duel = Ok tt w'
    /\ actors w' !! 4%nat
       = Some (@Enemy_hit Sprites0 zombie_chasing (sprite 160 310 4 4 0 1))
    /\ actors w' !! 2%nat
       = Some (@Bullet_hit Sprites0 (sprite 160 310 4 4 0 1)
                 (@Enemy_hit Sprites0 zombie_chasing (sprite 160 310 4 4 0 1)))
    /\ hits_of 2 (log w')
       = hits_of 2 (log level2_duel) ++ [Invoke Level_bulletEnemyCollision 2 4].
Proof.
  apply (bullet_hits_one_enemy (H := Sprites0) level2_duel 2 4
           (sprite 160 310 4 4 0 1) zombie_chasing).
  - apply Level.reachable_elsewhere with level2; [level2_is_reachable|].
    vm_compute. reflexivity.
  - vm_compute. reflexivity.
  - vm_compute. reflexivity.
  - lia.
  - not_member.
  - not_member.
  - vm_compute. reflexivity.
  - vm_compute. reflexivity.
  - vm_compute. reflexivity.
  - intros t tile Ht Hl.
    vm_compute in Ht.
    assert (t = 3%nat) as ->
      by (inversion Ht as [|? ? ? Ht']; [reflexivity|inversion Ht']).
    vm_compute in Hl. injection Hl as <-.
    split; [not_member|vm_compute; reflexivity].
Defined.

Lemma player_hit_by_one_enemy_witness :
  exists w',
    Level.handleCollisions (H := Sprites0) level2_contact = Ok tt w'
    /\ actors w' !! 0%nat
       = Some (@Player_hit Sprites0 (set_x 150 player0) (damage zombie_chasing))
    /\ hits_of 0 (log w')
       = hits_of 0 (log level2_contact) ++ [Invoke Level_playerEnemyCollision 0 4].
Proof.
  apply (player_hit_by_one_enemy (H := Sprites0) level2_contact 0 4
           (set_x 150 player0) zombie_chasing).
  - apply Level.reachable_elsewhere with level2; [level2_is_reachable|].
    vm_compute. reflexivity.
  - vm_compute. reflexivity.
  - vm_compute. reflexivity.
  - lia.
  - not_member.
  - vm_compute. reflexivity.
  - vm_compute. reflexivity.
  - vm_compute. reflexivity.
  - vm_compute. reflexivity.
Defined.

Lemma bullet_hits_wall_witness :
  exists w',
    Level.handleCollisions (H := Sprites0) level2_wall = Ok tt w'
    /\ actors w' !! 2%nat
       = Some (@Bullet_hit Sprites0 (sprite 300 330 4 4 0 1) (sprite 0 332 640 16 0 0))
    /\ hits_of 2 (log w')
       = hits_of 2 (log level2_wall) ++ [Invoke Level_bulletWallCollision 2 3].
Proof.
  apply (bullet_hits_wall (H := Sprites0) level2_wall 2 3
           (sprite 300 330 4 4 0 1) (sprite 0 332 640 16 0 0)).
  - apply Level.reachable_elsewhere with level2; [level2_is_reachable|].
    vm_compute. reflexivity.
  - vm_compute. reflexivity.
  - vm_compute. reflexivity.
  - lia.
  - not_member.
  - not_member.
  - not_member.
  - vm_compute. reflexivity.
  - vm_compute. reflexivity.
  - vm_compute. reflexivity.
  - intros e ae He Hl.
    vm_compute in He.
    assert (e = 4%nat) as ->
      by (inversion He as [|? ? ? He']; [reflexivity|inversion He']).
    vm_compute in Hl. injection Hl as <-.
    split; [not_member|vm_compute; reflexivity].
Defined.

(** ** The first enemy in a bullet's way *)

Section Passes4.

Variable on_collide : Callback -> nat -> nat -> World -> World.
Variable on_process : Callback -> nat -> nat -> World -> bool.



End Passes4.


Section FirstEnemy.

Context `{Sprites}.

Local Abbreviation mpass := (collide Main.on_collide Main.on_process).




End FirstEnemy.


(** ** The zombies of the spawn markers *)



Section Spawn.

Context `{Sprites}.


End Spawn.

